(** * Dynamic plugin configuration store (src/config/dynamic.ts)

    A shallow embedding of the [PluginConfig] class: the live configuration
    object, the per-key and all-key subscribers, the write-back to the
    options store and the projection of the class onto IPC channels.

    JavaScript objects are references.  The configuration objects therefore
    live in a heap of property lists, and an instance of the class holds the
    addresses of its [config] and [defaultConfig] objects.  The collaborators
    imported by the file ([setOptions], [setMenuOptions], [sendToFront]) and
    the subscriber callbacks are observed through a chronological log of the
    calls made to them.  Callbacks supplied by plugins are opaque observers:
    what they do with their argument is outside of the class.

    The live object, the subscribers object and the registry are plain
    objects below [Object.prototype], and the class indexes them with
    whatever string it is given.  Reads therefore see the members of
    [Object.prototype] (as the language defines them), a call of a subscriber
    may find one of them instead of a callback, and an assignment to
    [__proto__] goes to the accessor.  Where a call would replace the
    prototype of the live object or of the subscribers object, or would run
    the conversion methods of a value, the model says so and stops there. *)

From stdpp Require Import base decidable option list strings gmap pretty.

Open Scope string_scope.
Open Scope list_scope.

(** ** Values *)

Abbreviation loc := nat.

(** Runtime values.  Numbers are kept as integers plus [NaN]: the class only
    compares values and tests them for truthiness.  Objects, arrays and
    functions are references into the heap.  [VObjectPrototype] is
    [Object.prototype] itself, [VBuiltin n] the function it holds under the
    name [n]. *)
Inductive JSValue : Type :=
  | VUndefined
  | VNull
  | VBool (b : bool)
  | VNumber (n : Z)
  | VNaN
  | VString (s : string)
  | VObject (l : loc)
  | VArray (l : loc)
  | VFunction (l : loc)
  | VObjectPrototype
  | VBuiltin (name : string).

#[global] Instance JSValue_eq_dec : EqDecision JSValue.
Proof. solve_decision. Defined.

#[global] Instance JSValue_inhabited : Inhabited JSValue := populate VUndefined.

(** [a === b]: primitives by value, references by address, [NaN] equal to
    nothing. *)
Definition strict_eq (a b : JSValue) : bool :=
  match a, b with
  | VNaN, _ | _, VNaN => false
  | _, _ => bool_decide (a = b)
  end.

(** [a !== b] *)
Definition strict_neq (a b : JSValue) : bool := negb (strict_eq a b).

(** [typeof v] *)
Definition typeof (v : JSValue) : string :=
  match v with
  | VUndefined => "undefined"
  | VNull => "object"
  | VBool _ => "boolean"
  | VNumber _ | VNaN => "number"
  | VString _ => "string"
  | VObject _ | VArray _ | VObjectPrototype => "object"
  | VFunction _ | VBuiltin _ => "function"
  end.

(** [ToBoolean v], as used by [!v] and [||]. *)
Definition truthy (v : JSValue) : bool :=
  match v with
  | VUndefined | VNull | VNaN => false
  | VBool b => b
  | VNumber n => negb (n =? 0)%Z
  | VString s => negb (String.eqb s "")
  | VObject _ | VArray _ | VFunction _ | VObjectPrototype | VBuiltin _ => true
  end.

(** A reference to an object of the heap. *)
Definition is_reference (v : JSValue) : bool :=
  match v with
  | VObject _ | VArray _ | VFunction _ => true
  | _ => false
  end.

(** ** Objects and the heap *)

(** The own enumerable properties of an object, in the order in which the
    engine enumerates them: the array indices in ascending order, then the
    other keys in the order of their creation.  An array is stored with its
    indices as keys (["0"], ["1"], ...), which is what [Object.entries]
    enumerates. *)
Abbreviation obj := (list (string * JSValue)).

Definition digit_value (c : Ascii.ascii) : option N :=
  let n := Ascii.N_of_ascii c in
  if (48 <=? n)%N && (n <=? 57)%N then Some (n - 48)%N else None.

Fixpoint digits_value (s : string) (acc : N) : option N :=
  match s with
  | EmptyString => Some acc
  | String c s' =>
      match digit_value c with
      | Some d => digits_value s' (acc * 10 + d)%N
      | None => None
      end
  end.

(** The array index a key denotes: the key is the canonical decimal numeral
    of a number below [2^32 - 1]. *)
Definition array_index (k : string) : option N :=
  match digits_value k 0 with
  | Some n =>
      if String.eqb (pretty n) k && (n <? 4294967295)%N then Some n else None
  | None => None
  end.

(** A new key [k] is enumerated before the key [k'] that is there already. *)
Definition enumerated_before (k k' : string) : bool :=
  match array_index k, array_index k' with
  | Some n, Some m => (n <? m)%N
  | Some _, None => true
  | None, _ => false
  end.

Fixpoint js_ordered (ks : list string) : bool :=
  match ks with
  | [] => true
  | k :: ks' =>
      forallb (λ k', negb (enumerated_before k' k)) ks' && js_ordered ks'
  end.

(** Objects have each key once, in the order of enumeration. *)
Definition wf_obj (o : obj) : Prop := NoDup o.*1 ∧ js_ordered o.*1 = true.

#[global] Instance wf_obj_dec (o : obj) : Decision (wf_obj o).
Proof. unfold wf_obj. apply _. Defined.

(** [Object.hasOwn(o, k)] *)
Definition hasOwn (o : obj) (k : string) : bool := bool_decide (k ∈ o.*1).

(** The own property [k] of [o], [undefined] when there is none. *)
Fixpoint readProp (o : obj) (k : string) : JSValue :=
  match o with
  | [] => VUndefined
  | (k', v) :: o' => if decide (k' = k) then v else readProp o' k
  end.

(** The value of an own property changes in place. *)
Fixpoint replaceProp (o : obj) (k : string) (v : JSValue) : obj :=
  match o with
  | [] => []
  | (k', v') :: o' =>
      if decide (k' = k) then (k, v) :: o' else (k', v') :: replaceProp o' k v
  end.

(** A new property takes its place in the order of enumeration. *)
Fixpoint insertProp (o : obj) (k : string) (v : JSValue) : obj :=
  match o with
  | [] => [(k, v)]
  | (k', v') :: o' =>
      if enumerated_before k k' then (k, v) :: (k', v') :: o'
      else (k', v') :: insertProp o' k v
  end.

(** The own data property [k] of [o] is set to [v], or created. *)
Definition writeProp (o : obj) (k : string) (v : JSValue) : obj :=
  if hasOwn o k then replaceProp o k v else insertProp o k v.

(** [{ ...target, ...source }] once [target] has been copied. *)
Definition spread (target source : obj) : obj :=
  fold_left (fun acc kv => writeProp acc kv.1 kv.2) source target.

(** The function-valued members of [Object.prototype]. *)
Definition objectPrototype_methods : list string :=
  [ "constructor"; "hasOwnProperty"; "isPrototypeOf"; "propertyIsEnumerable";
    "toLocaleString"; "toString"; "valueOf";
    "__defineGetter__"; "__defineSetter__";
    "__lookupGetter__"; "__lookupSetter__" ].

(** The names [Object.prototype] defines: its methods and the accessor
    [__proto__]. *)
Definition inherited_name (k : string) : bool :=
  bool_decide (k ∈ "__proto__" :: objectPrototype_methods).

(** [o[k]] for a plain object [o] that has no own property [k]: what
    [Object.prototype] gives. *)
Definition inherited (k : string) : JSValue :=
  if String.eqb k "__proto__" then VObjectPrototype
  else if bool_decide (k ∈ objectPrototype_methods) then VBuiltin k
  else VUndefined.

(** [o[k]] for a plain object [o]. *)
Definition getProp (o : obj) (k : string) : JSValue :=
  if hasOwn o k then readProp o k else inherited k.

Definition deref (h : gmap loc obj) (l : loc) : obj := default [] (h !! l).

(** [Object.entries(v)] for a value [v] of type ['object']; the class calls
    it on nothing else.  The members of [Object.prototype] are not
    enumerable. *)
Definition object_entries (h : gmap loc obj) (v : JSValue) : obj :=
  match v with
  | VObject l | VArray l | VFunction l => deref h l
  | _ => []
  end.

(** A fresh object literal. *)
Definition alloc (h : gmap loc obj) (o : obj) : loc * gmap loc obj :=
  let l := fresh (dom h) in (l, <[l := o]> h).

(** ** The class and its surroundings *)

(** A subscriber is either a callback handed in by plugin code or one of the
    closures [setupFront] builds around [sendToFront]. *)
Inductive Callback : Type :=
  | User (id : nat)
  | Front (channel : string).

#[global] Instance Callback_eq_dec : EqDecision Callback.
Proof. solve_decision. Defined.

(** What a callback or a collaborator is handed: a field value, or the
    configuration object itself (its address and what it holds then). *)
Inductive Payload : Type :=
  | PValue (v : JSValue)
  | PConfig (l : loc) (content : obj).

Inductive Event : Type :=
  | Called (id : nat) (p : Payload)
  | SendToFront (channel : string) (p : Payload)
  | SetOptions (plugin : string) (l : loc) (content : obj)
  | SetMenuOptions (plugin : string) (l : loc) (content : obj).

#[global] Instance Payload_eq_dec : EqDecision Payload.
Proof. solve_decision. Defined.

#[global] Instance Event_eq_dec : EqDecision Event.
Proof. solve_decision. Defined.

(** An instance.  [subscribers] holds the own properties of the subscribers
    object. *)
Record PluginConfig : Type := {
  name : string;
  config : loc;
  defaultConfig : loc;
  enableFront : bool;
  subscribers : gmap string Callback;
  allSubscribers : list Callback
}.

Record PluginConfigOptions : Type := {
  options_enableFront : bool;
  initialOptions : option loc
}.

(** What [ipcMain.handle] and [ipcMain.on] were given. *)
Inductive Handler : Type :=
  | Forward (fn_name : string).

Inductive Listener : Type :=
  | OnSubscribe
  | OnSubscribeAll.

(** [activePlugins] maps a name to what [activePlugins[name]] was last
    assigned.  Under [__proto__] this is the prototype of the registry, which
    the accessor of that name sets and reads. *)
Record World : Type := {
  heap : gmap loc obj;
  handlers : list (string * Handler);
  listeners : list (string * Listener);
  activePlugins : gmap string PluginConfig;
  log : list Event
}.

Definition with_heap (h : gmap loc obj) (w : World) : World :=
  {| heap := h; handlers := handlers w; listeners := listeners w;
     activePlugins := activePlugins w; log := log w |}.

Definition emit (e : Event) (w : World) : World :=
  {| heap := heap w; handlers := handlers w; listeners := listeners w;
     activePlugins := activePlugins w; log := log w ++ [e] |}.

Definition ipcMain_handle (channel : string) (f : Handler) (w : World) : World :=
  {| heap := heap w; handlers := handlers w ++ [(channel, f)];
     listeners := listeners w; activePlugins := activePlugins w; log := log w |}.

Definition ipcMain_on (channel : string) (f : Listener) (w : World) : World :=
  {| heap := heap w; handlers := handlers w;
     listeners := listeners w ++ [(channel, f)];
     activePlugins := activePlugins w; log := log w |}.

(** [activePlugins[name] = this] *)
Definition register (this : PluginConfig) (w : World) : World :=
  {| heap := heap w; handlers := handlers w; listeners := listeners w;
     activePlugins := <[name this := this]> (activePlugins w); log := log w |}.

(** A member of an instance as [setupFront] sees it: a data field with its
    [typeof], or a function with its [name]. *)
Inductive Member : Type :=
  | Field (type_of : string)
  | Method (fn_name : string).

Definition member_typeof (m : Member) : string :=
  match m with
  | Field t => t
  | Method _ => "function"
  end.

Definition member_name (m : Member) : string :=
  match m with
  | Field _ => ""
  | Method n => n
  end.

(** [Object.entries(this)]: the own properties of an instance are its six
    fields, here in the order of their declaration; the methods ([get],
    [set], ...) sit on the prototype and are not among them. *)
Definition own_entries (this : PluginConfig) : list (string * Member) :=
  [ ("name", Field "string");
    ("config", Field "object");
    ("defaultConfig", Field "object");
    ("enableFront", Field "boolean");
    ("subscribers", Field "object");
    ("allSubscribers", Field "object") ].

(** The members of the prototype of the class. *)
Definition class_members : list string :=
  [ "constructor"; "get"; "set"; "getAll"; "setAll"; "getDefaultConfig";
    "setAndMaybeRestart"; "subscribe"; "subscribeAll"; "save"; "onChange";
    "setupFront" ].

(** [k in instance] *)
Definition instance_has (this : PluginConfig) (k : string) : bool :=
  bool_decide (k ∈ (own_entries this).*1)
  || bool_decide (k ∈ class_members)
  || inherited_name k.

(** [plugin in activePlugins]: an own property of the registry, or a
    property of its prototype, which is [Object.prototype] until an instance
    is assigned to [activePlugins.__proto__]. *)
Definition isActive (plugin : string) (w : World) : bool :=
  bool_decide (is_Some (activePlugins w !! plugin))
  || match activePlugins w !! "__proto__" with
     | Some instance => instance_has instance plugin
     | None => inherited_name plugin
     end.

(** [getActivePlugins()] *)
Definition getActivePlugins (w : World) : gmap string PluginConfig :=
  activePlugins w.

(** The result of a call: it returns, it throws, or it does what the model
    has no account of; the world is the one the call has reached by then. *)
Inductive Outcome (A : Type) : Type :=
  | Returned (a : A) (w : World)
  | Thrown (message : string) (w : World)
  | Unmodelled (w : World).
Arguments Returned {A} a w.
Arguments Thrown {A} message w.
Arguments Unmodelled {A} w.

Definition world_of {A} (r : Outcome A) : World :=
  match r with Returned _ w | Thrown _ w | Unmodelled w => w end.

(** Code that runs in a world. *)
Definition M (A : Type) : Type := World → Outcome A.

#[global] Instance M_ret : MRet M := λ A a w, Returned a w.

#[global] Instance M_bind : MBind M := λ A B f m w,
  match m w with
  | Returned a w' => f a w'
  | Thrown message w' => Thrown message w'
  | Unmodelled w' => Unmodelled w'
  end.

(** Code that cannot fail. *)
Definition lift (f : World → World) : M unit := λ w, Returned tt (f w).

(** Code that does nothing. *)
Definition pass : M unit := λ w, Returned tt w.

(** The [TypeError] the engine throws; its message is the engine's. *)
Definition TypeError : string := "TypeError".

(** ** Methods *)

(** [this.config] as it is now. *)
Definition live (this : PluginConfig) (w : World) : obj :=
  deref (heap w) (config this).

(** What calling a subscriber amounts to: a callback of plugin code is run,
    a closure of [setupFront] passes its argument to [sendToFront]. *)
Definition notification (fn : Callback) (p : Payload) : Event :=
  match fn with
  | User id => Called id p
  | Front channel => SendToFront channel p
  end.

Definition invoke (fn : Callback) (p : Payload) (w : World) : World :=
  emit (notification fn p) w.

(** [for (const fn of this.allSubscribers) fn(this.config)] *)
Definition fanOut (this : PluginConfig) (w : World) : World :=
  fold_left (fun w fn => invoke fn (PConfig (config this) (live this w)) w)
            (allSubscribers this) w.

(** [get(key)] *)
Definition get (this : PluginConfig) (key : string) (w : World) : JSValue :=
  getProp (live this w) key.

(** The own data property [key] of the live object is set, or created. *)
Definition store (this : PluginConfig) (key : string) (value : JSValue)
    (w : World) : World :=
  with_heap (<[config this := writeProp (live this w) key value]> (heap w)) w.

(** [this.config[key] = value].  A key that is an own property, and any key
    but [__proto__], is stored.  [__proto__] otherwise goes to the accessor
    of [Object.prototype]: it ignores a primitive, it keeps the prototype
    when handed [Object.prototype], and it replaces the prototype by any
    other object or [null], which the model does not follow. *)
Definition assign (this : PluginConfig) (key : string) (value : JSValue)
    : M unit := λ w,
  if hasOwn (live this w) key || negb (String.eqb key "__proto__") then
    Returned tt (store this key value w)
  else
    match value with
    | VObject _ | VArray _ | VFunction _ | VBuiltin _ | VNull => Unmodelled w
    | _ => Returned tt w
    end.

(** A member of [Object.prototype] called as [this.subscribers[n](arg)].
    [__defineGetter__] and [__defineSetter__] throw for want of a function as
    second argument; [toLocaleString] calls [this.subscribers.toString()],
    which is the subscriber of that name if there is one; the members that
    take a property key convert [arg], which for a reference runs its
    conversion methods; the others return. *)
Definition builtin_call (this : PluginConfig) (n : string) (arg : JSValue)
    : M unit := λ w,
  if bool_decide (n ∈ ["__defineGetter__"; "__defineSetter__"]) then
    Thrown TypeError w
  else if String.eqb n "toLocaleString" then
    match subscribers this !! "toString" with
    | Some fn => Returned tt (invoke fn (PValue VUndefined) w)
    | None => Returned tt w
    end
  else if bool_decide (n ∈ ["hasOwnProperty"; "propertyIsEnumerable";
                            "__lookupGetter__"; "__lookupSetter__"]) then
    if is_reference arg then Unmodelled w else Returned tt w
  else Returned tt w.

(** [this.subscribers[valueName]?.(this.config[valueName])]: nothing is
    called when the lookup gives [undefined]; what it gives otherwise is
    called, and a [TypeError] is thrown when that is no function (the
    prototype, under [__proto__]). *)
Definition callSubscriber (this : PluginConfig) (valueName : string)
    : M unit := λ w,
  let arg := getProp (live this w) valueName in
  match subscribers this !! valueName with
  | Some fn => Returned tt (invoke fn (PValue arg) w)
  | None =>
      match inherited valueName with
      | VUndefined => Returned tt w
      | VBuiltin n => builtin_call this n arg w
      | _ => Thrown TypeError w
      end
  end.

(** [onChange(valueName, single = true)] *)
Definition onChange (this : PluginConfig) (valueName : string) (single : bool)
    : M unit :=
  callSubscriber this valueName ;;
  lift (λ w, if single then fanOut this w else w).

(** [save()] *)
Definition save (this : PluginConfig) (w : World) : World :=
  emit (SetOptions (name this) (config this) (live this w)) w.

(** [set(key, value)] *)
Definition set (this : PluginConfig) (key : string) (value : JSValue)
    : M unit :=
  assign this key value ;;
  onChange this key true ;;
  lift (save this).

(** [getAll()]: a fresh object holding the properties of [this.config]. *)
Definition getAll (this : PluginConfig) (w : World) : loc * World :=
  let '(l, h) := alloc (heap w) (spread [] (live this w)) in
  (l, with_heap h w).

(** One turn of the loop of [setAll]. *)
Definition setAll_step (this : PluginConfig) (changed : bool)
    (entry : string * JSValue) : M bool := λ w,
  let '(key, value) := entry in
  if strict_neq (getProp (live this w) key) value then
    ((if strict_neq value VUndefined then assign this key value else pass) ;;
     onChange this key false ;;
     (mret true : M bool)) w
  else Returned changed w.

(** The loop of [setAll] over the entries. *)
Fixpoint setAll_loop (this : PluginConfig) (entries : obj) (changed : bool)
    : M bool :=
  match entries with
  | [] => (mret changed : M bool)
  | entry :: rest =>
      changed ← setAll_step this changed entry;
      setAll_loop this rest changed
  end.

(** [setAll(options)] *)
Definition setAll (this : PluginConfig) (options : JSValue) : M unit := λ w,
  if negb (truthy options) || negb (String.eqb (typeof options) "object") then
    Thrown "Options must be an object." w
  else
    (setAll_loop this (object_entries (heap w) options) false ≫=
     λ changed : bool,
       lift (λ w, save this (if changed then fanOut this w else w))) w.

(** [getDefaultConfig()] *)
Definition getDefaultConfig (this : PluginConfig) : loc := defaultConfig this.

(** [setAndMaybeRestart(key, value)] *)
Definition setAndMaybeRestart (this : PluginConfig) (key : string)
    (value : JSValue) : M unit :=
  assign this key value ;;
  lift (λ w, emit (SetMenuOptions (name this) (config this) (live this w)) w) ;;
  onChange this key true.

(** [subscribe(valueName, fn)]: the subscriber is stored under the name,
    except under [__proto__], where the accessor makes [fn] the prototype of
    the subscribers object, which the model does not follow. *)
Definition subscribe (this : PluginConfig) (valueName : string) (fn : Callback)
    : option PluginConfig :=
  if String.eqb valueName "__proto__"
     && negb (bool_decide (is_Some (subscribers this !! valueName)))
  then None
  else Some
    {| name := name this; config := config this;
       defaultConfig := defaultConfig this; enableFront := enableFront this;
       subscribers := <[valueName := fn]> (subscribers this);
       allSubscribers := allSubscribers this |}.

(** [subscribeAll(fn)] *)
Definition subscribeAll (this : PluginConfig) (fn : Callback) : PluginConfig :=
  {| name := name this; config := config this;
     defaultConfig := defaultConfig this; enableFront := enableFront this;
     subscribers := subscribers this;
     allSubscribers := allSubscribers this ++ [fn] |}.

(** ** Projection onto IPC channels and construction *)

(** What the listener on ["<name>-config-subscribe"] does with a message. *)
Definition on_subscribe (this : PluginConfig) (valueName : string)
    : option PluginConfig :=
  subscribe this valueName (Front (name this +:+ "-config-changed-" +:+ valueName)).

(** What the listener on ["<name>-config-subscribe-all"] does. *)
Definition on_subscribe_all (this : PluginConfig) : PluginConfig :=
  subscribeAll this (Front (name this +:+ "-config-changed")).

Definition default_options : PluginConfigOptions :=
  {| options_enableFront := false; initialOptions := None |}.
Section Construction.

(** Property names an array inherits from its prototype chain. *)
Variable array_inherits : string -> bool.

(** [defaultConfig.plugins]: the default table, from plugin name to the
    address of its default object. *)
Variable defaultPlugins : gmap string loc.

(** [getOptions(name)]: the options kept by the store, if any. *)
Variable getOptions : string -> option loc.

(** [key in arr] for an array [arr]. *)
Definition js_in_array (key : string) (arr : list string) : bool :=
  existsb (fun i : nat => String.eqb key (pretty i)) (seq 0 (length arr))
  || String.eqb key "length"
  || array_inherits key.

Definition ignoredMethods : list string := ["subscribe"; "subscribeAll"].

(** The [for] loop of [setupFront]; the flag tells that the loop left
    through [return]. *)
Fixpoint setupFront_loop (this : PluginConfig)
    (entries : list (string * Member)) (w : World) : World * bool :=
  match entries with
  | [] => (w, false)
  | (fnName, fn) :: rest =>
      if negb (String.eqb (member_typeof fn) "function")
         || js_in_array (member_name fn) ignoredMethods
      then (w, true)
      else
        setupFront_loop this rest
          (ipcMain_handle (name this +:+ "-config-" +:+ fnName)
                          (Forward (member_name fn)) w)
  end.

(** [setupFront()] *)
Definition setupFront (this : PluginConfig) (w : World) : World :=
  let '(w, returned) := setupFront_loop this (own_entries this) w in
  if returned then w
  else
    let w := ipcMain_on (name this +:+ "-config-subscribe") OnSubscribe w in
    ipcMain_on (name this +:+ "-config-subscribe-all") OnSubscribeAll w.

(** [new PluginConfig(name, options)] *)
Definition construct (plugin : string) (options : PluginConfigOptions)
    (w : World) : PluginConfig * World :=
  let '(pluginDefaultConfig, h) :=
    match defaultPlugins !! plugin with
    | Some l => (l, heap w)
    | None => alloc (heap w) []
    end in
  let '(pluginConfig, h) :=
    match initialOptions options with
    | Some l => (l, h)
    | None =>
        match getOptions plugin with
        | Some l => (l, h)
        | None => alloc h []
        end
    end in
  let '(cfg, h) :=
    alloc h (spread (spread [] (deref h pluginDefaultConfig))
                    (deref h pluginConfig)) in
  let this :=
    {| name := plugin; config := cfg; defaultConfig := pluginDefaultConfig;
       enableFront := options_enableFront options;
       subscribers := ∅; allSubscribers := [] |} in
  let w := with_heap h w in
  let w := if enableFront this then setupFront this w else w in
  (this, register this w).

(** The object that [options.initialOptions || getOptions(name) || {}]
    denotes. *)
Definition overrideSource (plugin : string) (options : PluginConfigOptions)
    (w : World) : obj :=
  match initialOptions options with
  | Some l => deref (heap w) l
  | None =>
      match getOptions plugin with
      | Some l => deref (heap w) l
      | None => []
      end
  end.

(** The object that [defaultConfig.plugins[name] ?? {}] denotes. *)
Definition resolvedDefaults (plugin : string) (w : World) : obj :=
  match defaultPlugins !! plugin with
  | Some l => deref (heap w) l
  | None => []
  end.

End Construction.

(** ** Sequences of calls on one instance *)

Inductive Call : Type :=
  | CallSet (key : string) (value : JSValue)
  | CallSetAll (options : JSValue)
  | CallSetAndMaybeRestart (key : string) (value : JSValue)
  | CallSubscribe (valueName : string) (fn : Callback)
  | CallSubscribeAll (fn : Callback).

(** One call, with the instance as it is afterwards. *)
Definition perform (this : PluginConfig) (c : Call) : M PluginConfig :=
  match c with
  | CallSet key value => set this key value ;; mret this
  | CallSetAll options => setAll this options ;; mret this
  | CallSetAndMaybeRestart key value =>
      setAndMaybeRestart this key value ;; mret this
  | CallSubscribe valueName fn =>
      λ w, match subscribe this valueName fn with
           | Some this' => Returned this' w
           | None => Unmodelled w
           end
  | CallSubscribeAll fn => mret (subscribeAll this fn)
  end.

(** The state after a call; a caller that catches an error goes on with the
    world the throw left.  There is no state after a call the model does not
    follow. *)
Definition call (st : PluginConfig * World) (c : Call)
    : option (PluginConfig * World) :=
  match perform st.1 c st.2 with
  | Returned this' w' => Some (this', w')
  | Thrown _ w' => Some (st.1, w')
  | Unmodelled _ => None
  end.

(** The calls in order, up to the first one the model does not follow. *)
Fixpoint run (calls : list Call) (st : PluginConfig * World)
    : PluginConfig * World :=
  match calls with
  | [] => st
  | c :: rest =>
      match call st c with
      | Some st' => run rest st'
      | None => st
      end
  end.

(** ** What the claims speak of *)

(** The calls to the persistence backend among some events. *)
Definition is_SetOptions (e : Event) : bool :=
  match e with SetOptions _ _ _ => true | _ => false end.

Definition persist_calls (es : list Event) : nat :=
  length (filter (fun e => is_SetOptions e = true) es).

(** The notification of the per-key subscriber of [key], if there is one,
    with [value]. *)
Definition perKeyEvents (this : PluginConfig) (key : string) (value : JSValue)
    : list Event :=
  match subscribers this !! key with
  | Some fn => [notification fn (PValue value)]
  | None => []
  end.

(** The notification of every all-subscriber, in order, with the
    configuration object holding [content]. *)
Definition fanOutEvents (this : PluginConfig) (content : obj) : list Event :=
  (fun fn => notification fn (PConfig (config this) content)) <$> allSubscribers this.

(** The event of one write-back. *)
Definition persistEvent (this : PluginConfig) (content : obj) : Event :=
  SetOptions (name this) (config this) content.

(** A patch entry differs from what [o[key]] gives. *)
Definition differs (o : obj) (entry : string * JSValue) : bool :=
  strict_neq (getProp o entry.1) entry.2.

(** The patch applied as the specification words it: every entry that is
    not [undefined] is stored. *)
Definition apply_patch (o patch : obj) : obj :=
  fold_left
    (fun acc entry =>
       if bool_decide (entry.2 = VUndefined) then acc
       else writeProp acc entry.1 entry.2)
    patch o.

(** The per-key notifications of a patch: one for each differing entry whose
    key has a subscriber, with the value stored for the key afterwards. *)
Definition patchEvents (this : PluginConfig) (o patch : obj) : list Event :=
  flat_map
    (fun entry =>
       if differs o entry then
         perKeyEvents this entry.1
           (if bool_decide (entry.2 = VUndefined) then getProp o entry.1
            else entry.2)
       else [])
    patch.

(** The keys of a patch are none of the names [Object.prototype] defines. *)
Definition plain_keys (patch : obj) : Prop :=
  Forall (λ entry, inherited_name entry.1 = false) patch.

#[global] Instance plain_keys_dec (patch : obj) : Decision (plain_keys patch).
Proof. unfold plain_keys. apply _. Defined.

(** The world after some more events. *)
Definition emits (es : list Event) (w : World) : World :=
  {| heap := heap w; handlers := handlers w; listeners := listeners w;
     activePlugins := activePlugins w; log := log w ++ es |}.

(** Everything but the live object of [this] and the log is as it was. *)
Definition same_elsewhere (this : PluginConfig) (w w' : World) : Prop :=
  (∀ l, l ≠ config this → heap w' !! l = heap w !! l)
  ∧ handlers w' = handlers w
  ∧ listeners w' = listeners w
  ∧ activePlugins w' = activePlugins w.

(** What one entry does to the object, in the words of [apply_patch]. *)
Definition patch_entry (o : obj) (entry : string * JSValue) : obj :=
  if bool_decide (entry.2 = VUndefined) then o else writeProp o entry.1 entry.2.

(** The fan-out that ends the loop, in the words of the specification. *)
Definition bulkEvents (this : PluginConfig) (o patch : obj) : list Event :=
  if existsb (differs o) patch then fanOutEvents this (apply_patch o patch)
  else [].

(** The subscriber of a key is found directly when the key has one, or when
    [Object.prototype] has nothing under that name. *)
Definition direct (this : PluginConfig) (k : string) : Prop :=
  is_Some (subscribers this !! k) ∨ inherited_name k = false.

(** The live object of [this] has kept its fields, and nothing else but the
    log has changed. *)
Definition grows (this : PluginConfig) (w w' : World) : Prop :=
  same_elsewhere this w w' ∧ (live this w).*1 ⊆ (live this w').*1.

(** The same, with [n] more calls to the persistence backend. *)
Definition advances (this : PluginConfig) (n : nat) (w w' : World) : Prop :=
  grows this w w' ∧ persist_calls (log w') = persist_calls (log w) + n.

(** A call throws nothing but a [TypeError]. *)
Definition throws_TypeError_only {A} (r : Outcome A) : Prop :=
  match r with
  | Thrown message _ => message = TypeError
  | _ => True
  end.

(** A value the accessor [__proto__] leaves the prototype with: a primitive,
    or [Object.prototype] itself. *)
Definition keeps_prototype (v : JSValue) : bool :=
  match v with
  | VObject _ | VArray _ | VFunction _ | VBuiltin _ | VNull => false
  | _ => true
  end.

(** A call has returned. *)
Definition returned {A} (r : Outcome A) : bool :=
  match r with Returned _ _ => true | _ => false end.

(** The calls that end in [save()]. *)
Definition writes_back (c : Call) : bool :=
  match c with
  | CallSet _ _ | CallSetAll _ => true
  | _ => false
  end.

(** A call whose keys are none of the names [Object.prototype] defines. *)
Definition plain_call (w : World) (c : Call) : Prop :=
  match c with
  | CallSet key _ | CallSetAndMaybeRestart key _ => inherited_name key = false
  | CallSetAll options =>
      wf_obj (object_entries (heap w) options)
      ∧ plain_keys (object_entries (heap w) options)
  | CallSubscribe valueName _ => valueName ≠ "__proto__"
  | CallSubscribeAll _ => True
  end.

(** The handlers the loop of [setupFront] registers for some members. *)
Definition forwarded (this : PluginConfig) (members : list (string * Member))
    : list (string * Handler) :=
  (λ e, (name this +:+ "-config-" +:+ e.1, Forward (member_name e.2))) <$> members.

(** ** Concrete stores *)

(** A store for a plugin [P] with subscribers for [a] and [b] and two
    all-subscribers, one of them the push to the front. *)
Definition example_store : PluginConfig :=
  {| name := "P"; config := 0; defaultConfig := 1; enableFront := false;
     subscribers := {[ "a" := User 1; "b" := User 2 ]};
     allSubscribers := [User 7; Front "P-config-changed"] |}.

(** Its live object at [0], its defaults at [1], and the arguments of some
    calls: [{a: 1, b: 2}] at [2], [{a: undefined}] at [3], the array [[5]]
    at [4]. *)
Definition example_world : World :=
  {| heap := {[ 0 := [("a", VNumber 0); ("b", VNumber 2)];
                1 := [("a", VNumber 0)];
                2 := [("a", VNumber 1); ("b", VNumber 2)];
                3 := [("a", VUndefined)];
                4 := [("0", VNumber 5)] ]};
     handlers := []; listeners := []; activePlugins := ∅; log := [] |}.

Definition example_table : gmap string loc := {[ "P" := 1 ]}.

Definition example_calls : list Call :=
  [ CallSet "a" (VNumber 9);
    CallSetAll (VObject 2);
    CallSubscribeAll (User 3);
    CallSetAndMaybeRestart "c" VNull;
    CallSetAll (VNumber 42) ].

(** The concrete store again, with the arguments [{c: 3}] at [5] and
    [{a: NaN}] at [6]. *)
Definition example_world_more : World :=
  {| heap := {[ 0 := [("a", VNumber 0); ("b", VNumber 2)];
                1 := [("a", VNumber 0)];
                2 := [("a", VNumber 1); ("b", VNumber 2)];
                3 := [("a", VUndefined)];
                5 := [("c", VNumber 3)];
                6 := [("a", VNaN)] ]};
     handlers := []; listeners := []; activePlugins := ∅; log := [] |}.

(** Members as an instance with function-valued fields would have them. *)
Definition example_members : list (string * Member) :=
  [("reload", Method "reload"); ("reset", Method "reset")].

(** * Properties *)

(** ** Objects *)

Lemma readProp_absent (o : obj) k : k ∉ o.*1 → readProp o k = VUndefined.
Proof.
  induction o as [|[k' v'] o IH]; simpl; [done|].
  intros Hk. apply not_elem_of_cons in Hk as [Hne Hk].
  rewrite decide_False; [by apply IH | done].
Qed.

Lemma readProp_present (o : obj) k v : wf_obj o → (k, v) ∈ o → readProp o k = v.
Proof.
  intros [Hnd _]. induction o as [|[k' v'] o IH]; intros Hin.
  - by apply elem_of_nil in Hin.
  - apply NoDup_cons in Hnd as [Hk' Hnd]. cbn [readProp].
    apply elem_of_cons in Hin as [Heq|Hin].
    + injection Heq as <- <-. by rewrite decide_True.
    + rewrite decide_False; [by apply IH|].
      intros ->. apply Hk'. apply list_elem_of_fmap. by exists (k, v).
Qed.

Lemma keys_replaceProp (o : obj) k v : (replaceProp o k v).*1 = o.*1.
Proof.
  induction o as [|[k' v'] o IH]; [done|]. cbn [replaceProp].
  destruct (decide (k' = k)) as [->|Hne]; rewrite !fmap_cons; cbn [fst];
    [done | by rewrite IH].
Qed.

Lemma readProp_replaceProp_eq (o : obj) k v :
  k ∈ o.*1 → readProp (replaceProp o k v) k = v.
Proof.
  induction o as [|[k' v'] o IH]; simpl.
  - by intros ?%elem_of_nil.
  - intros Hin. destruct (decide (k' = k)) as [->|Hne]; simpl.
    + by rewrite decide_True.
    + rewrite decide_False by done. apply IH.
      apply elem_of_cons in Hin as [?|?]; [congruence | done].
Qed.

Lemma readProp_replaceProp_ne (o : obj) k k' v :
  k ≠ k' → readProp (replaceProp o k v) k' = readProp o k'.
Proof.
  intros Hne. induction o as [|[k0 v0] o IH]; simpl; [done|].
  destruct (decide (k0 = k)) as [->|Hk0]; simpl.
  - by rewrite !decide_False.
  - by rewrite IH.
Qed.

Lemma elem_of_insertProp (o : obj) k v x :
  x ∈ (insertProp o k v).*1 ↔ x = k ∨ x ∈ o.*1.
Proof.
  induction o as [|[k' v'] o IH]; simpl.
  - rewrite list_elem_of_singleton. rewrite elem_of_nil. tauto.
  - destruct (enumerated_before k k'); simpl.
    + rewrite !elem_of_cons. tauto.
    + rewrite !elem_of_cons, IH. tauto.
Qed.

Lemma readProp_insertProp_eq (o : obj) k v :
  k ∉ o.*1 → readProp (insertProp o k v) k = v.
Proof.
  induction o as [|[k' v'] o IH]; simpl.
  - intros _. by rewrite decide_True.
  - intros Hk. apply not_elem_of_cons in Hk as [Hne Hk].
    destruct (enumerated_before k k'); simpl.
    + by rewrite decide_True.
    + rewrite decide_False by done. by apply IH.
Qed.

Lemma readProp_insertProp_ne (o : obj) k k' v :
  k ≠ k' → readProp (insertProp o k v) k' = readProp o k'.
Proof.
  intros Hne. induction o as [|[k0 v0] o IH]; simpl.
  - by rewrite decide_False.
  - destruct (enumerated_before k k0); simpl.
    + by rewrite decide_False.
    + by rewrite IH.
Qed.

Lemma hasOwn_true (o : obj) k : hasOwn o k = true ↔ k ∈ o.*1.
Proof. unfold hasOwn. apply bool_decide_eq_true. Qed.

Lemma hasOwn_false (o : obj) k : hasOwn o k = false ↔ k ∉ o.*1.
Proof. unfold hasOwn. apply bool_decide_eq_false. Qed.

Lemma elem_of_writeProp (o : obj) k v x :
  x ∈ (writeProp o k v).*1 ↔ x = k ∨ x ∈ o.*1.
Proof.
  unfold writeProp. destruct (hasOwn o k) eqn:Hown.
  - rewrite keys_replaceProp. apply hasOwn_true in Hown.
    split; [by right | by intros [->|?]].
  - apply elem_of_insertProp.
Qed.

Lemma writeProp_keys (o : obj) k v : o.*1 ⊆ (writeProp o k v).*1.
Proof. intros x Hx. apply elem_of_writeProp. by right. Qed.

Lemma readProp_writeProp_eq (o : obj) k v : readProp (writeProp o k v) k = v.
Proof.
  unfold writeProp. destruct (hasOwn o k) eqn:Hown.
  - apply readProp_replaceProp_eq. by apply hasOwn_true.
  - apply readProp_insertProp_eq. by apply hasOwn_false.
Qed.

Lemma readProp_writeProp_ne (o : obj) k k' v :
  k ≠ k' → readProp (writeProp o k v) k' = readProp o k'.
Proof.
  intros Hne. unfold writeProp. destruct (hasOwn o k).
  - by apply readProp_replaceProp_ne.
  - by apply readProp_insertProp_ne.
Qed.

Lemma hasOwn_writeProp_eq (o : obj) k v : hasOwn (writeProp o k v) k = true.
Proof. apply hasOwn_true, elem_of_writeProp. by left. Qed.

Lemma hasOwn_writeProp_ne (o : obj) k k' v :
  k ≠ k' → hasOwn (writeProp o k v) k' = hasOwn o k'.
Proof.
  intros Hne. unfold hasOwn. apply bool_decide_ext.
  rewrite elem_of_writeProp. split; [intros [?|?]; [congruence|done] | by right].
Qed.

Lemma getProp_writeProp_eq (o : obj) k v : getProp (writeProp o k v) k = v.
Proof. unfold getProp. by rewrite hasOwn_writeProp_eq, readProp_writeProp_eq. Qed.

Lemma getProp_writeProp_ne (o : obj) k k' v :
  k ≠ k' → getProp (writeProp o k v) k' = getProp o k'.
Proof.
  intros Hne. unfold getProp.
  by rewrite hasOwn_writeProp_ne, readProp_writeProp_ne.
Qed.

(** A name [Object.prototype] does not define is found on the object or
    nowhere. *)
Lemma inherited_plain k : inherited_name k = false → inherited k = VUndefined.
Proof.
  unfold inherited_name, inherited. intros Hk%bool_decide_eq_false.
  apply not_elem_of_cons in Hk as [Hproto Hmethods].
  apply String.eqb_neq in Hproto. rewrite Hproto.
  by rewrite bool_decide_eq_false_2.
Qed.

Lemma plain_not_proto k : inherited_name k = false → String.eqb k "__proto__" = false.
Proof.
  unfold inherited_name. intros Hk%bool_decide_eq_false.
  apply not_elem_of_cons in Hk as [Hproto _]. by apply String.eqb_neq.
Qed.

Lemma getProp_plain (o : obj) k : inherited_name k = false → getProp o k = readProp o k.
Proof.
  intros Hk. unfold getProp. destruct (hasOwn o k) eqn:Hown; [done|].
  rewrite inherited_plain by done. symmetry. apply readProp_absent.
  by apply hasOwn_false.
Qed.

Lemma getProp_own (o : obj) k : k ∈ o.*1 → getProp o k = readProp o k.
Proof. intros Hk%hasOwn_true. unfold getProp. by rewrite Hk. Qed.

(** Storing what an own property holds leaves the object as it is. *)
Lemma replaceProp_same (o : obj) k : replaceProp o k (readProp o k) = o.
Proof.
  induction o as [|[k' v'] o IH]; simpl; [done|].
  destruct (decide (k' = k)) as [->|Hne]; [done | by rewrite IH].
Qed.

Lemma writeProp_same (o : obj) k : k ∈ o.*1 → writeProp o k (readProp o k) = o.
Proof.
  intros Hk%hasOwn_true. unfold writeProp. rewrite Hk. apply replaceProp_same.
Qed.

Lemma strict_eq_true a b : strict_eq a b = true → a = b.
Proof.
  unfold strict_eq.
  destruct a, b; try discriminate; intros H;
    by apply bool_decide_eq_true in H.
Qed.

Lemma strict_neq_false a b : strict_neq a b = false → a = b.
Proof.
  unfold strict_neq. intros H. apply strict_eq_true.
  by destruct (strict_eq a b).
Qed.

Lemma strict_neq_undefined v :
  strict_neq v VUndefined = negb (bool_decide (v = VUndefined)).
Proof. by destruct v. Qed.

Lemma strict_neq_same v : v ≠ VNaN → strict_neq v v = false.
Proof.
  intros Hv. unfold strict_neq, strict_eq.
  destruct v; try done; by rewrite bool_decide_eq_true_2.
Qed.

(** *** The order of enumeration *)

Lemma js_ordered_app_l (ks ks' : list string) :
  js_ordered (ks ++ ks') = true → js_ordered ks = true.
Proof.
  induction ks as [|k ks IH]; [done|]. cbn [app js_ordered].
  rewrite !andb_true_iff, forallb_app, andb_true_iff.
  intros [[Hk _] Hrest]. split; [done | by apply IH].
Qed.

Lemma js_ordered_snoc (ks : list string) k :
  js_ordered (ks ++ [k]) = true →
  forallb (λ k', negb (enumerated_before k k')) ks = true.
Proof.
  induction ks as [|k0 ks IH]; [done|]. cbn [app js_ordered forallb].
  rewrite !andb_true_iff, forallb_app, andb_true_iff. cbn [forallb].
  rewrite andb_true_r. intros [[_ Hk] Hrest]. split; [done | by apply IH].
Qed.

(** A key that is enumerated after all the others is put last. *)
Lemma insertProp_last (o : obj) k v :
  forallb (λ k', negb (enumerated_before k k')) o.*1 = true →
  insertProp o k v = o ++ [(k, v)].
Proof.
  induction o as [|[k' v'] o IH]; [done|]. cbn [fmap list_fmap forallb fst].
  rewrite andb_true_iff, negb_true_iff. intros [Hk' Hrest].
  cbn [insertProp app]. by rewrite Hk', IH.
Qed.

(** Copying a well-formed object gives the object. *)
Lemma spread_well_formed (source : obj) : ∀ target,
  wf_obj (target ++ source) → spread target source = target ++ source.
Proof.
  induction source as [|[k v] source IH]; intros target [Hnd Hord].
  - by rewrite app_nil_r.
  - unfold spread in *. cbn [fold_left fst snd].
    rewrite fmap_app, fmap_cons in Hnd, Hord. cbn [fst] in Hnd, Hord.
    assert (k ∉ target.*1) as Hk.
    { apply NoDup_app in Hnd as (_ & Hdis & _). intros Hin.
      apply (Hdis k Hin). left. }
    unfold writeProp. rewrite (proj2 (hasOwn_false _ _) Hk).
    rewrite insertProp_last.
    + rewrite IH; [by rewrite <- app_assoc|].
      split; rewrite fmap_app, fmap_app, <- app_assoc; done.
    + apply js_ordered_snoc. apply (js_ordered_app_l _ source.*1).
      by rewrite <- app_assoc.
Qed.

Lemma spread_nil (o : obj) : wf_obj o → spread [] o = o.
Proof. intros Hwf. by rewrite spread_well_formed. Qed.

Lemma elem_of_spread (source : obj) : ∀ target x,
  x ∈ (spread target source).*1 ↔ x ∈ target.*1 ∨ x ∈ source.*1.
Proof.
  induction source as [|[k v] source IH]; intros target x.
  - unfold spread. simpl. rewrite elem_of_nil. tauto.
  - change (spread target ((k, v) :: source))
      with (spread (writeProp target k v) source).
    rewrite IH, elem_of_writeProp, fmap_cons, elem_of_cons. simpl. tauto.
Qed.

(** In [{ ...target, ...source }] a key of [source] reads as in [source],
    any other key as in [target]. *)
Lemma readProp_spread (source : obj) : ∀ target k,
  wf_obj source →
  readProp (spread target source) k
  = if bool_decide (k ∈ source.*1) then readProp source k else readProp target k.
Proof.
  induction source as [|[k1 v1] source IH]; intros target k [Hnd Hord].
  - rewrite bool_decide_eq_false_2; [done | apply not_elem_of_nil].
  - rewrite fmap_cons in Hnd, Hord. cbn [fst js_ordered] in Hnd, Hord.
    apply NoDup_cons in Hnd as [Hk1 Hnd].
    apply andb_true_iff in Hord as [_ Hord].
    change (spread target ((k1, v1) :: source))
      with (spread (writeProp target k1 v1) source).
    rewrite IH by done. cbn [readProp].
    destruct (decide (k1 = k)) as [->|Hne].
    + rewrite (bool_decide_eq_false_2 (k ∈ source.*1)) by done.
      rewrite bool_decide_eq_true_2 by (rewrite fmap_cons; left).
      apply readProp_writeProp_eq.
    + rewrite readProp_writeProp_ne by done.
      assert (bool_decide (k ∈ ((k1, v1) :: source).*1)
              = bool_decide (k ∈ source.*1)) as ->; [|done].
      apply bool_decide_ext. rewrite fmap_cons, elem_of_cons. simpl.
      split; [intros [?|?]; [congruence|done] | by right].
Qed.

(** ** The log *)

Lemma emits_nil w : emits [] w = w.
Proof. destruct w. unfold emits. simpl. by rewrite app_nil_r. Qed.

Lemma emits_emits es1 es2 w : emits es2 (emits es1 w) = emits (es1 ++ es2) w.
Proof. unfold emits. simpl. by rewrite app_assoc. Qed.

Lemma emit_emits e w : emit e w = emits [e] w.
Proof. reflexivity. Qed.

Lemma store_emits this k v es w :
  store this k v (emits es w) = emits es (store this k v w).
Proof. reflexivity. Qed.

Lemma live_emits this es w : live this (emits es w) = live this w.
Proof. reflexivity. Qed.

Lemma live_store this k v w :
  live this (store this k v w) = writeProp (live this w) k v.
Proof. unfold live, store, deref. simpl. by rewrite lookup_insert_eq. Qed.

Lemma persist_calls_app es1 es2 :
  persist_calls (es1 ++ es2) = persist_calls es1 + persist_calls es2.
Proof. unfold persist_calls. by rewrite filter_app, length_app. Qed.

Lemma persist_calls_notification fn p : persist_calls [notification fn p] = 0.
Proof. by destruct fn. Qed.

Lemma persist_calls_perKeyEvents this k v : persist_calls (perKeyEvents this k v) = 0.
Proof.
  unfold perKeyEvents. destruct (subscribers this !! k); [|done].
  apply persist_calls_notification.
Qed.

Lemma persist_calls_fanOutEvents this o : persist_calls (fanOutEvents this o) = 0.
Proof.
  unfold fanOutEvents. induction (allSubscribers this) as [|fn fns IH]; [done|].
  rewrite fmap_cons. change (?x :: ?l) with ([x] ++ l).
  by rewrite persist_calls_app, persist_calls_notification, IH.
Qed.

Lemma persist_calls_single e :
  persist_calls [e] = if is_SetOptions e then 1 else 0.
Proof. unfold persist_calls. by destruct e. Qed.

(** ** Code that runs in a world *)

Lemma bind_returned {A B} (m : M A) (f : A → M B) w a w' :
  m w = Returned a w' → (m ≫= f) w = f a w'.
Proof. unfold mbind, M_bind. by intros ->. Qed.

Lemma bind_thrown {A B} (m : M A) (f : A → M B) w e w' :
  m w = Thrown e w' → (m ≫= f) w = Thrown e w'.
Proof. unfold mbind, M_bind. by intros ->. Qed.

Lemma bind_unmodelled {A B} (m : M A) (f : A → M B) w w' :
  m w = Unmodelled w' → (m ≫= f) w = Unmodelled w'.
Proof. unfold mbind, M_bind. by intros ->. Qed.

(** A relation between worlds that both parts of a sequence respect is
    respected by the sequence, however it ends. *)
Lemma bind_respects {A B} (R : World → World → Prop) (m : M A) (f : A → M B) w :
  (∀ w1 w2 w3, R w1 w2 → R w2 w3 → R w1 w3) →
  R w (world_of (m w)) →
  (∀ a w', R w' (world_of (f a w'))) →
  R w (world_of ((m ≫= f) w)).
Proof.
  intros Htrans Hm Hf. unfold mbind, M_bind.
  destruct (m w) as [a w'|e w'|w']; cbn [world_of] in *; [|done|done].
  eapply Htrans; [exact Hm | apply Hf].
Qed.

(** ** Notification and write-back *)

Lemma fanOut_emits this w : fanOut this w = emits (fanOutEvents this (live this w)) w.
Proof.
  unfold fanOut, fanOutEvents.
  generalize (allSubscribers this) as fns. intros fns. revert w.
  induction fns as [|fn fns IH]; intros w; simpl.
  - by rewrite emits_nil.
  - rewrite IH. unfold invoke. rewrite emit_emits, emits_emits.
    by rewrite live_emits.
Qed.

Lemma save_emits this w : save this w = emits [persistEvent this (live this w)] w.
Proof. reflexivity. Qed.

(** Any key but [__proto__] is stored. *)
Lemma assign_stored this k v w :
  String.eqb k "__proto__" = false →
  assign this k v w = Returned tt (store this k v w).
Proof. intros Hk. unfold assign. by rewrite Hk, orb_true_r. Qed.

Lemma callSubscriber_direct this k w :
  direct this k →
  callSubscriber this k w
  = Returned tt (emits (perKeyEvents this k (getProp (live this w) k)) w).
Proof.
  unfold callSubscriber, perKeyEvents. intros [[fn Hfn]|Hplain].
  - by rewrite Hfn.
  - destruct (subscribers this !! k) as [fn|]; [done|].
    by rewrite inherited_plain, emits_nil.
Qed.

Lemma onChange_direct this k single w :
  direct this k →
  onChange this k single w
  = Returned tt
      (emits (perKeyEvents this k (getProp (live this w) k)
              ++ (if single then fanOutEvents this (live this w) else [])) w).
Proof.
  intros Hk. unfold onChange.
  rewrite (bind_returned _ _ _ _ _ (callSubscriber_direct this k w Hk)).
  unfold lift. destruct single.
  - by rewrite fanOut_emits, emits_emits, live_emits.
  - by rewrite app_nil_r.
Qed.

Lemma set_direct this k v w :
  String.eqb k "__proto__" = false →
  direct this k →
  set this k v w
  = Returned tt
      (emits (perKeyEvents this k v
              ++ fanOutEvents this (writeProp (live this w) k v)
              ++ [persistEvent this (writeProp (live this w) k v)])
             (store this k v w)).
Proof.
  intros Hproto Hk. unfold set.
  rewrite (bind_returned _ _ _ _ _ (assign_stored this k v w Hproto)).
  rewrite (bind_returned _ _ _ _ _ (onChange_direct this k true _ Hk)).
  unfold lift. rewrite save_emits, emits_emits, live_emits.
  rewrite live_store, getProp_writeProp_eq. by rewrite <- app_assoc.
Qed.

Lemma setAndMaybeRestart_direct this k v w :
  String.eqb k "__proto__" = false →
  direct this k →
  setAndMaybeRestart this k v w
  = Returned tt
      (emits (SetMenuOptions (name this) (config this) (writeProp (live this w) k v)
              :: perKeyEvents this k v
              ++ fanOutEvents this (writeProp (live this w) k v))
             (store this k v w)).
Proof.
  intros Hproto Hk. unfold setAndMaybeRestart.
  rewrite (bind_returned _ _ _ _ _ (assign_stored this k v w Hproto)).
  unfold lift at 1.
  erewrite bind_returned; [|reflexivity].
  rewrite (onChange_direct this k true _ Hk).
  rewrite emit_emits, emits_emits, live_emits.
  by rewrite live_store, getProp_writeProp_eq.
Qed.

Lemma direct_plain this k : inherited_name k = false → direct this k.
Proof. by right. Qed.

Create HintDb plain.

#[local] Hint Resolve direct_plain plain_not_proto : plain.



(** ** Subscription *)

Lemma subscribe_stored this f fn :
  f ≠ "__proto__" →
  subscribe this f fn
  = Some {| name := name this; config := config this;
            defaultConfig := defaultConfig this; enableFront := enableFront this;
            subscribers := <[f := fn]> (subscribers this);
            allSubscribers := allSubscribers this |}.
Proof.
  intros Hf%String.eqb_neq. unfold subscribe. by rewrite Hf.
Qed.


(** ** What every call keeps *)

Lemma same_elsewhere_refl this w : same_elsewhere this w w.
Proof. by repeat split. Qed.

Lemma same_elsewhere_trans this w1 w2 w3 :
  same_elsewhere this w1 w2 → same_elsewhere this w2 w3 → same_elsewhere this w1 w3.
Proof.
  intros (Hh1 & Ha1 & Hb1 & Hc1) (Hh2 & Ha2 & Hb2 & Hc2). repeat split.
  - intros l Hl. by rewrite Hh2, Hh1.
  - congruence.
  - congruence.
  - congruence.
Qed.

Lemma same_elsewhere_emits this es w : same_elsewhere this w (emits es w).
Proof. by repeat split. Qed.

Lemma same_elsewhere_store this k v w : same_elsewhere this w (store this k v w).
Proof.
  repeat split. intros l Hl. unfold store. simpl. by rewrite lookup_insert_ne.
Qed.

Lemma same_elsewhere_config this this' w w' :
  config this' = config this → same_elsewhere this' w w' → same_elsewhere this w w'.
Proof. unfold same_elsewhere. by intros ->. Qed.

Lemma advances_refl this w : advances this 0 w w.
Proof. repeat split; [done | lia]. Qed.

Lemma advances_trans this n1 n2 w1 w2 w3 :
  advances this n1 w1 w2 → advances this n2 w2 w3 → advances this (n1 + n2) w1 w3.
Proof.
  intros [[Hs1 Hk1] Hp1] [[Hs2 Hk2] Hp2]. split; [split|].
  - by eapply same_elsewhere_trans.
  - by etrans.
  - lia.
Qed.

Lemma quiet_trans this w1 w2 w3 :
  advances this 0 w1 w2 → advances this 0 w2 w3 → advances this 0 w1 w3.
Proof. apply (advances_trans this 0 0). Qed.

Lemma advances_emits this es w :
  advances this (persist_calls es) w (emits es w).
Proof.
  split; [split|].
  - apply same_elsewhere_emits.
  - done.
  - cbn [log emits]. by rewrite persist_calls_app.
Qed.

Lemma advances_store this k v w : advances this 0 w (store this k v w).
Proof.
  split; [split|].
  - apply same_elsewhere_store.
  - rewrite live_store. apply writeProp_keys.
  - simpl. lia.
Qed.

Lemma quiet_invoke this fn p w : advances this 0 w (invoke fn p w).
Proof.
  unfold invoke. rewrite emit_emits.
  rewrite <- (persist_calls_notification fn p). apply advances_emits.
Qed.

Lemma quiet_fanOut this w : advances this 0 w (fanOut this w).
Proof.
  rewrite fanOut_emits.
  rewrite <- (persist_calls_fanOutEvents this (live this w)). apply advances_emits.
Qed.

Lemma advances_save this w : advances this 1 w (save this w).
Proof.
  rewrite save_emits.
  exact (advances_emits this [persistEvent this (live this w)] w).
Qed.

Lemma quiet_assign this k v w : advances this 0 w (world_of (assign this k v w)).
Proof.
  unfold assign.
  destruct (hasOwn (live this w) k || negb (String.eqb k "__proto__")).
  - apply advances_store.
  - destruct v; apply advances_refl.
Qed.

Lemma quiet_builtin_call this n arg w :
  advances this 0 w (world_of (builtin_call this n arg w)).
Proof.
  unfold builtin_call. repeat case_match; cbn [world_of];
    first [apply advances_refl | apply quiet_invoke].
Qed.

Lemma quiet_callSubscriber this k w :
  advances this 0 w (world_of (callSubscriber this k w)).
Proof.
  unfold callSubscriber. destruct (subscribers this !! k) as [fn|].
  - apply quiet_invoke.
  - destruct (inherited k); cbn [world_of];
      first [apply advances_refl | apply quiet_builtin_call].
Qed.

Lemma quiet_onChange this k single w :
  advances this 0 w (world_of (onChange this k single w)).
Proof.
  unfold onChange. apply bind_respects.
  - apply quiet_trans.
  - apply quiet_callSubscriber.
  - intros _ w'. unfold lift. cbn [world_of].
    destruct single; [apply quiet_fanOut | apply advances_refl].
Qed.

(** A sequence whose first part is quiet and whose second part writes back
    [n] times when it returns. *)
Lemma bind_advances {A B} this (m : M A) (f : A → M B) n w :
  advances this 0 w (world_of (m w)) →
  (∀ a w', advances this (if returned (f a w') then n else 0) w'
             (world_of (f a w'))) →
  advances this (if returned ((m ≫= f) w) then n else 0) w
    (world_of ((m ≫= f) w)).
Proof.
  intros Hm Hf. unfold mbind, M_bind.
  destruct (m w) as [a w'|e w'|w']; cbn [world_of returned] in *; [|done|done].
  apply (advances_trans this 0 _ _ _ _ Hm (Hf a w')).
Qed.

Lemma advances_set this k v w :
  advances this (if returned (set this k v w) then 1 else 0) w
    (world_of (set this k v w)).
Proof.
  unfold set. apply bind_advances; [apply quiet_assign|].
  intros _ w1. apply bind_advances; [apply quiet_onChange|].
  intros _ w2. unfold lift. cbn [returned world_of]. apply advances_save.
Qed.

Lemma quiet_setAndMaybeRestart this k v w :
  advances this 0 w (world_of (setAndMaybeRestart this k v w)).
Proof.
  unfold setAndMaybeRestart. apply bind_respects.
  - apply quiet_trans.
  - apply quiet_assign.
  - intros _ w1. apply bind_respects.
    + apply quiet_trans.
    + unfold lift. cbn [world_of]. rewrite emit_emits.
      exact (advances_emits this
               [SetMenuOptions (name this) (config this) (live this w1)] w1).
    + intros _ w2. apply quiet_onChange.
Qed.

Lemma quiet_setAll_step this changed entry w :
  advances this 0 w (world_of (setAll_step this changed entry w)).
Proof.
  unfold setAll_step. destruct entry as [k v].
  destruct (strict_neq (getProp (live this w) k) v); [|apply advances_refl].
  apply bind_respects.
  - apply quiet_trans.
  - destruct (strict_neq v VUndefined); [apply quiet_assign | apply advances_refl].
  - intros _ w1. apply bind_respects.
    + apply quiet_trans.
    + apply quiet_onChange.
    + intros _ w2. apply advances_refl.
Qed.

Lemma quiet_setAll_loop this (entries : obj) : ∀ changed w,
  advances this 0 w (world_of (setAll_loop this entries changed w)).
Proof.
  induction entries as [|entry rest IH]; intros changed w.
  - apply advances_refl.
  - cbn [setAll_loop]. apply bind_respects.
    + apply quiet_trans.
    + apply quiet_setAll_step.
    + intros c w1. apply IH.
Qed.

Lemma advances_setAll this options w :
  advances this (if returned (setAll this options w) then 1 else 0) w
    (world_of (setAll this options w)).
Proof.
  unfold setAll.
  destruct (negb (truthy options) || negb (String.eqb (typeof options) "object")).
  - apply advances_refl.
  - apply bind_advances; [apply quiet_setAll_loop|].
    intros changed w1. unfold lift. cbn [returned world_of].
    apply (advances_trans this 0 1 _ (if changed then fanOut this w1 else w1)).
    + destruct changed; [apply quiet_fanOut | apply advances_refl].
    + apply advances_save.
Qed.

(** ** The loop of [setAll] *)

Create HintDb frame.

#[local] Hint Resolve same_elsewhere_refl same_elsewhere_emits
  same_elsewhere_store : frame.

Lemma apply_patch_cons o entry patch :
  apply_patch o (entry :: patch) = apply_patch (patch_entry o entry) patch.
Proof. reflexivity. Qed.

Lemma getProp_patch_entry_ne o entry k :
  entry.1 ≠ k → getProp (patch_entry o entry) k = getProp o k.
Proof.
  intros Hne. unfold patch_entry. case_bool_decide; [done|].
  by apply getProp_writeProp_ne.
Qed.

Lemma patch_entry_keys (o : obj) entry : o.*1 ⊆ (patch_entry o entry).*1.
Proof.
  unfold patch_entry. case_bool_decide; [done | apply writeProp_keys].
Qed.

Lemma patch_entry_same o entry :
  inherited_name entry.1 = false →
  differs o entry = false → patch_entry o entry = o.
Proof.
  unfold differs, patch_entry. intros Hplain Hsame%strict_neq_false.
  case_bool_decide as Hv; [done|].
  rewrite getProp_plain in Hsame by done.
  rewrite <- Hsame. apply writeProp_same.
  destruct (decide (entry.1 ∈ o.*1)) as [|Habsent]; [done|].
  by rewrite readProp_absent in Hsame.
Qed.

Lemma setAll_step_spec this w changed k v :
  inherited_name k = false →
  let o := live this w in
  ∃ w',
    setAll_step this changed (k, v) w = Returned (changed || differs o (k, v)) w'
    ∧ live this w' = patch_entry o (k, v)
    ∧ log w' = log w ++ patchEvents this o [(k, v)]
    ∧ same_elsewhere this w w'.
Proof.
  intros Hk o. unfold setAll_step, patchEvents, differs.
  cbn [fst snd flat_map]. fold o. rewrite app_nil_r.
  destruct (strict_neq (getProp o k) v) eqn:Hdiff.
  - rewrite orb_true_r, strict_neq_undefined. unfold patch_entry. cbn [fst snd].
    case_bool_decide as Hv; cbn [negb].
    + erewrite bind_returned; [|reflexivity].
      erewrite bind_returned; [|apply onChange_direct; auto with plain].
      eexists. split; [reflexivity|]. rewrite app_nil_r.
      split_and!; eauto with frame.
    + erewrite bind_returned; [|apply assign_stored; auto with plain].
      erewrite bind_returned; [|apply onChange_direct; auto with plain].
      eexists. split; [reflexivity|]. rewrite app_nil_r.
      rewrite live_emits, live_store. fold o.
      rewrite getProp_writeProp_eq.
      split_and!; [done|done|].
      eapply same_elsewhere_trans; eauto with frame.
  - rewrite orb_false_r. exists w. rewrite app_nil_r.
    split_and!; eauto with frame.
    symmetry. apply patch_entry_same; [done|]. unfold differs. by fold o.
Qed.

Lemma patchEvents_cons this o entry patch :
  patchEvents this o (entry :: patch) =
  patchEvents this o [entry] ++ patchEvents this o patch.
Proof. unfold patchEvents. simpl. by rewrite app_nil_r. Qed.

(** Entries under other keys are judged alike before and after a write. *)
Lemma differs_ext o o' (patch : obj) :
  (∀ entry, entry ∈ patch → getProp o' entry.1 = getProp o entry.1) →
  existsb (differs o') patch = existsb (differs o) patch.
Proof.
  induction patch as [|entry patch IH]; intros Hsame; simpl; [done|].
  rewrite IH.
  - unfold differs. rewrite Hsame; [done|]. left.
  - intros e He. apply Hsame. by right.
Qed.

Lemma patchEvents_ext this o o' (patch : obj) :
  (∀ entry, entry ∈ patch → getProp o' entry.1 = getProp o entry.1) →
  patchEvents this o' patch = patchEvents this o patch.
Proof.
  induction patch as [|entry patch IH]; intros Hsame; [done|].
  rewrite (patchEvents_cons this o'), (patchEvents_cons this o).
  rewrite IH.
  - f_equal. unfold patchEvents, differs. simpl.
    rewrite Hsame; [done|]. left.
  - intros e He. apply Hsame. by right.
Qed.

Lemma setAll_loop_spec this (patch : obj) : ∀ w changed,
  wf_obj patch →
  plain_keys patch →
  ∃ w',
    setAll_loop this patch changed w
    = Returned (changed || existsb (differs (live this w)) patch) w'
    ∧ live this w' = apply_patch (live this w) patch
    ∧ log w' = log w ++ patchEvents this (live this w) patch
    ∧ same_elsewhere this w w'.
Proof.
  induction patch as [|[k v] patch IH]; intros w changed [Hnd Hord] Hplain.
  - exists w. simpl. rewrite orb_false_r, app_nil_r.
    split_and!; eauto with frame.
  - rewrite fmap_cons in Hnd, Hord. cbn [fst js_ordered] in Hnd, Hord.
    apply NoDup_cons in Hnd as [Hk Hnd].
    apply andb_true_iff in Hord as [_ Hord].
    apply Forall_cons in Hplain as [Hkplain Hplain]. cbn [fst] in Hkplain.
    destruct (setAll_step_spec this w changed k v Hkplain)
      as (w1 & Hstep & Hlive1 & Hlog1 & Hfr1).
    destruct (IH w1 (changed || differs (live this w) (k, v)) (conj Hnd Hord) Hplain)
      as (w' & Hloop & Hlive & Hlog & Hfr).
    assert (∀ entry, entry ∈ patch →
              getProp (live this w1) entry.1 = getProp (live this w) entry.1)
      as Hsame.
    { intros entry He. rewrite Hlive1. apply getProp_patch_entry_ne. simpl.
      intros ->. apply Hk. apply list_elem_of_fmap. by exists entry. }
    exists w'. cbn [setAll_loop existsb].
    rewrite (bind_returned _ _ _ _ _ Hstep), Hloop.
    rewrite (differs_ext _ _ _ Hsame), orb_assoc.
    split_and!.
    + done.
    + by rewrite Hlive, Hlive1, apply_patch_cons.
    + rewrite Hlog, Hlog1, (patchEvents_ext _ _ _ _ Hsame).
      by rewrite (patchEvents_cons this _ (k, v) patch), app_assoc.
    + by eapply same_elsewhere_trans.
Qed.

(** A patch none of whose entries differs changes nothing and notifies
    nobody. *)
Lemma no_difference this o (patch : obj) :
  plain_keys patch →
  existsb (differs o) patch = false →
  apply_patch o patch = o ∧ patchEvents this o patch = [].
Proof.
  induction patch as [|entry patch IH]; [done|].
  intros [Hk Hplain]%Forall_cons. cbn [existsb].
  intros [Hentry Hrest]%orb_false_elim.
  destruct (IH Hplain Hrest) as [Hp He].
  rewrite apply_patch_cons, patchEvents_cons, patch_entry_same by done.
  split; [done|]. rewrite He. unfold patchEvents. simpl. by rewrite Hentry.
Qed.

(** Field by field: a field the patch defines reads as the patch has it,
    any other field as before. *)
Lemma getProp_apply_patch (patch : obj) : ∀ o k,
  wf_obj patch →
  getProp (apply_patch o patch) k
  = if bool_decide (readProp patch k = VUndefined) then getProp o k
    else readProp patch k.
Proof.
  induction patch as [|[k1 v1] patch IH]; intros o k [Hnd Hord]; [done|].
  rewrite fmap_cons in Hnd, Hord. cbn [fst js_ordered] in Hnd, Hord.
  apply NoDup_cons in Hnd as [Hk1 Hnd].
  apply andb_true_iff in Hord as [_ Hord].
  rewrite apply_patch_cons, IH by done. cbn [readProp].
  destruct (decide (k1 = k)) as [->|Hne].
  - rewrite (readProp_absent patch k) by done.
    rewrite bool_decide_eq_true_2 by done.
    unfold patch_entry. cbn [fst snd]. case_bool_decide; [done|].
    apply getProp_writeProp_eq.
  - by rewrite getProp_patch_entry_ne.
Qed.

Lemma persist_calls_patchEvents this o (patch : obj) :
  persist_calls (patchEvents this o patch) = 0.
Proof.
  induction patch as [|entry patch IH]; [done|].
  rewrite patchEvents_cons, persist_calls_app, IH.
  unfold patchEvents. simpl. rewrite app_nil_r.
  destruct (differs o entry); [|done].
  by rewrite persist_calls_perKeyEvents.
Qed.

(** The loop passes over a patch without a differing entry. *)
Lemma setAll_loop_no_difference this (patch : obj) w changed :
  existsb (differs (live this w)) patch = false →
  setAll_loop this patch changed w = Returned changed w.
Proof.
  induction patch as [|[k v] patch IH]; [done|].
  cbn [existsb]. intros [Hentry Hrest]%orb_false_elim.
  cbn [setAll_loop]. unfold differs in Hentry. cbn [fst snd] in Hentry.
  erewrite bind_returned; [by apply IH|].
  unfold setAll_step. by rewrite Hentry.
Qed.

(** No entry of a well-formed object without [NaN] differs from the object. *)
Lemma differs_self (o : obj) :
  wf_obj o → Forall (λ e, e.2 ≠ VNaN) o → existsb (differs o) o = false.
Proof.
  intros Hwf Hnan. apply not_true_is_false. intros Hex.
  apply existsb_exists in Hex as ([k v] & Hin & Hdiff).
  apply list_elem_of_In in Hin. unfold differs in Hdiff. cbn [fst snd] in Hdiff.
  rewrite getProp_own in Hdiff
    by (apply list_elem_of_fmap; by exists (k, v)).
  rewrite (readProp_present o k v) in Hdiff by done.
  rewrite strict_neq_same in Hdiff; [done|].
  by apply (proj1 (Forall_forall _ _) Hnan (k, v)).
Qed.

(** Once a patch of defined values other than [NaN] is applied, none of its
    entries differs from the object. *)
Lemma differs_applied (o patch : obj) :
  wf_obj patch →
  Forall (λ e, e.2 ≠ VUndefined ∧ e.2 ≠ VNaN) patch →
  existsb (differs (apply_patch o patch)) patch = false.
Proof.
  intros Hwf Hvals. apply not_true_is_false. intros Hex.
  apply existsb_exists in Hex as ([k v] & Hin & Hdiff).
  apply list_elem_of_In in Hin. unfold differs in Hdiff. cbn [fst snd] in Hdiff.
  destruct (proj1 (Forall_forall _ _) Hvals (k, v) Hin) as [Hundef Hnan].
  cbn [snd] in Hundef, Hnan.
  rewrite getProp_apply_patch, (readProp_present patch k v) in Hdiff by done.
  rewrite bool_decide_eq_false_2 in Hdiff by done.
  by rewrite strict_neq_same in Hdiff.
Qed.

(** ** [setAll] *)

(** The guard of [setAll] lets through the values of type ['object'] that
    are not [null]. *)
Lemma setAll_guard options :
  negb (truthy options) || negb (String.eqb (typeof options) "object") = false
  ↔ (∃ l, options = VObject l ∨ options = VArray l) ∨ options = VObjectPrototype.
Proof.
  split.
  - destruct options; simpl; try discriminate; eauto.
    all: rewrite orb_false_iff; intros [_ H]; discriminate.
  - by intros [(l & [-> | ->]) | ->].
Qed.

Lemma setAll_accepted this options w :
  negb (truthy options) || negb (String.eqb (typeof options) "object") = false →
  let o := live this w in
  let patch := object_entries (heap w) options in
  wf_obj patch →
  plain_keys patch →
  ∃ w',
    setAll this options w = Returned tt w'
    ∧ live this w' = apply_patch o patch
    ∧ log w' = log w ++ patchEvents this o patch
                     ++ bulkEvents this o patch
                     ++ [persistEvent this (apply_patch o patch)]
    ∧ same_elsewhere this w w'.
Proof.
  intros Hguard o patch Hwf Hplain. unfold setAll. rewrite Hguard. fold patch.
  destruct (setAll_loop_spec this patch w false Hwf Hplain)
    as (w1 & Hloop & Hlive & Hlog & Hfr).
  fold o in Hloop, Hlive, Hlog.
  rewrite (bind_returned _ _ _ _ _ Hloop). cbn [orb]. unfold lift.
  unfold bulkEvents. destruct (existsb (differs o) patch).
  - rewrite fanOut_emits, save_emits, emits_emits.
    rewrite !live_emits, Hlive. eexists. split; [reflexivity|].
    rewrite live_emits, Hlive. cbn [log emits]. rewrite Hlog, <- !app_assoc.
    split_and!; [done|done|].
    eapply same_elsewhere_trans; [exact Hfr | apply same_elsewhere_emits].
  - rewrite save_emits, Hlive.
    eexists. split; [reflexivity|].
    rewrite live_emits, Hlive. cbn [log emits]. rewrite Hlog, <- !app_assoc.
    split_and!; [done|done|].
    eapply same_elsewhere_trans; [exact Hfr | apply same_elsewhere_emits].
Qed.

Lemma setAll_no_difference this l w :
  existsb (differs (live this w)) (deref (heap w) l) = false →
  setAll this (VObject l) w = Returned tt (save this w).
Proof.
  intros Hnone. unfold setAll. cbn [truthy typeof negb orb String.eqb].
  cbn [object_entries].
  by rewrite (bind_returned _ _ _ _ _ (setAll_loop_no_difference _ _ _ _ Hnone)).
Qed.

Lemma persist_calls_setAll_events this o (patch : obj) es :
  persist_calls
    (es ++ patchEvents this o patch ++ bulkEvents this o patch
        ++ [persistEvent this (apply_patch o patch)])
  = S (persist_calls es).
Proof.
  rewrite !persist_calls_app, persist_calls_patchEvents.
  unfold bulkEvents. destruct (existsb (differs o) patch).
  - rewrite persist_calls_fanOutEvents. unfold persist_calls at 2. simpl. lia.
  - unfold persist_calls at 2 3. simpl. lia.
Qed.

(** What is thrown past the guard is a [TypeError]. *)
Lemma bind_throws {A B} (m : M A) (f : A → M B) w :
  throws_TypeError_only (m w) →
  (∀ a w', throws_TypeError_only (f a w')) →
  throws_TypeError_only ((m ≫= f) w).
Proof.
  intros Hm Hf. unfold mbind, M_bind.
  destruct (m w) as [a w'|e w'|w']; [apply Hf | done | done].
Qed.

Lemma onChange_throws this k single w :
  throws_TypeError_only (onChange this k single w).
Proof.
  unfold onChange. apply bind_throws; [|done].
  unfold callSubscriber. destruct (subscribers this !! k); [done|].
  destruct (inherited k); try done.
  unfold builtin_call. by repeat case_match.
Qed.

Lemma assign_throws this k v w : throws_TypeError_only (assign this k v w).
Proof. unfold assign. by repeat case_match. Qed.

Lemma setAll_loop_throws this (entries : obj) : ∀ changed w,
  throws_TypeError_only (setAll_loop this entries changed w).
Proof.
  induction entries as [|[k v] rest IH]; intros changed w; [done|].
  cbn [setAll_loop]. apply bind_throws; [|intros; apply IH].
  unfold setAll_step.
  destruct (strict_neq (getProp (live this w) k) v); [|done].
  apply bind_throws.
  - destruct (strict_neq v VUndefined); [apply assign_throws | done].
  - intros _ w1. apply bind_throws; [apply onChange_throws | done].
Qed.


(** C5: when the live object stores something else than [1] under [a] and
    [2] under [b], [setAll({a: 1, b: 2})] notifies the per-key subscriber of
    [a] and no other, then every all-subscriber once with the object that
    holds both values, and writes back once. *)
Theorem setAll_one_of_two_changes this l w :
  deref (heap w) l = [("a", VNumber 1); ("b", VNumber 2)] →
  strict_neq (get this "a" w) (VNumber 1) = true →
  get this "b" w = VNumber 2 →
  let updated := writeProp (live this w) "a" (VNumber 1) in
  ∃ w',
    setAll this (VObject l) w = Returned tt w'
    ∧ live this w' = updated
    ∧ get this "a" w' = VNumber 1
    ∧ get this "b" w' = VNumber 2
    ∧ log w' = log w ++ perKeyEvents this "a" (VNumber 1)
                     ++ fanOutEvents this updated
                     ++ [persistEvent this updated]
    ∧ persist_calls (log w') = S (persist_calls (log w)).
Proof.
  intros Hpatch Ha Hb updated. unfold get in *.
  assert (wf_obj (object_entries (heap w) (VObject l))) as Hwf.
  { cbn [object_entries]. rewrite Hpatch.
    apply (bool_decide_unpack _). by vm_compute. }
  assert (plain_keys (object_entries (heap w) (VObject l))) as Hplain.
  { cbn [object_entries]. rewrite Hpatch.
    apply (bool_decide_unpack _). by vm_compute. }
  destruct (setAll_accepted this (VObject l) w eq_refl Hwf Hplain)
    as (w' & Hret & Hlive & Hlog & _).
  cbn [object_entries] in Hlive, Hlog. rewrite Hpatch in Hlive, Hlog.
  assert (getProp updated "b" = VNumber 2) as Hb'.
  { unfold updated. by rewrite getProp_writeProp_ne. }
  assert ("b" ∈ updated.*1) as Hown.
  { destruct (decide ("b" ∈ updated.*1)) as [|Habsent]; [done|].
    rewrite getProp_plain, readProp_absent in Hb' by done. done. }
  assert (apply_patch (live this w) [("a", VNumber 1); ("b", VNumber 2)] = updated)
    as Hupd.
  { unfold apply_patch. simpl. fold updated.
    rewrite getProp_own in Hb' by done. rewrite <- Hb'.
    by apply writeProp_same. }
  assert (patchEvents this (live this w) [("a", VNumber 1); ("b", VNumber 2)]
          = perKeyEvents this "a" (VNumber 1)) as Hev.
  { unfold patchEvents, differs. simpl. rewrite Ha, Hb. simpl.
    by rewrite app_nil_r. }
  assert (bulkEvents this (live this w) [("a", VNumber 1); ("b", VNumber 2)]
          = fanOutEvents this updated) as Hbulk.
  { unfold bulkEvents. rewrite Hupd. unfold differs at 1. simpl. by rewrite Ha. }
  pose proof (persist_calls_setAll_events this (live this w)
                [("a", VNumber 1); ("b", VNumber 2)] (log w)) as Hcount.
  rewrite <- Hlog in Hcount.
  rewrite Hupd, Hev, Hbulk in Hlog. rewrite Hupd in Hlive.
  exists w'. rewrite Hlive. split_and!; try done.
  unfold updated. apply getProp_writeProp_eq.
Qed.

(** C3, as the code has it: when the argument is falsy or its [typeof] is
    not ['object'], [setAll] throws at once and leaves the world as it was:
    the live object, the subscribers and the log, with no write-back. *)
Theorem setAll_rejects this options w :
  truthy options = false ∨ typeof options ≠ "object" →
  setAll this options w = Thrown "Options must be an object." w
  ∧ live this (world_of (setAll this options w)) = live this w
  ∧ log (world_of (setAll this options w)) = log w.
Proof.
  intros Hbad.
  assert (setAll this options w = Thrown "Options must be an object." w) as ->.
  { unfold setAll. destruct Hbad as [-> | Hty]; [done|].
    destruct options; simpl in *; try done. all: by rewrite orb_true_r. }
  done.
Qed.

Lemma setAll_throws this options w :
  negb (truthy options) || negb (String.eqb (typeof options) "object") = false →
  throws_TypeError_only (setAll this options w).
Proof.
  intros Hguard. unfold setAll. rewrite Hguard.
  apply bind_throws; [apply setAll_loop_throws | done].
Qed.

(** C10: [setAll] throws its error exactly for [undefined], [null] and the
    values whose [typeof] is not ['object'].  An array is taken for a patch:
    each of its entries is compared with the stored value, stored, and its
    subscriber notified, then the all-subscribers are notified and the
    object is written back, as for the object with the same entries. *)
Theorem setAll_accepts_arrays :
  (∀ this options w,
     (∃ w', setAll this options w = Thrown "Options must be an object." w')
     ↔ (options = VUndefined ∨ options = VNull ∨ typeof options ≠ "object"))
  ∧ (∀ this l w,
       let o := live this w in
       let patch := deref (heap w) l in
       wf_obj patch →
       plain_keys patch →
       ∃ w',
         setAll this (VArray l) w = Returned tt w'
         ∧ live this w' = apply_patch o patch
         ∧ (∀ k, get this k w'
                 = if bool_decide (readProp patch k = VUndefined)
                   then get this k w else readProp patch k)
         ∧ log w' = log w ++ patchEvents this o patch
                          ++ (if existsb (differs o) patch
                              then fanOutEvents this (apply_patch o patch)
                              else [])
                          ++ [persistEvent this (apply_patch o patch)]).
Proof.
  split.
  - intros this options w.
    destruct (negb (truthy options) || negb (String.eqb (typeof options) "object"))
      eqn:Hguard.
    + split.
      * intros _.
        destruct options; simpl in *; try discriminate; eauto.
        all: right; right; discriminate.
      * intros _. exists w. unfold setAll. by rewrite Hguard.
    + split.
      * intros [w' Hthrown].
        pose proof (setAll_throws this options w Hguard) as Honly.
        rewrite Hthrown in Honly. discriminate Honly.
      * apply setAll_guard in Hguard as [(l & [-> | ->]) | ->];
          by intros [?|[?|?]].
  - intros this l w o patch Hwf Hplain.
    destruct (setAll_accepted this (VArray l) w eq_refl Hwf Hplain)
      as (w' & Hret & Hlive & Hlog & _).
    fold o in Hlive, Hlog. cbn [object_entries] in Hlive, Hlog.
    fold patch in Hlive, Hlog.
    exists w'. split_and!; [done|done| |done].
    intros k. unfold get. rewrite Hlive. by apply getProp_apply_patch.
Qed.

(** ** More on [setAll] *)

(** X5: [setAll] with the one entry [k: v], where [v] is defined and differs
    from what [this.config[k]] gives, does what [set(k, v)] does, for every
    key: the same assignment, the same notifications in the same order, the
    same write-back, and the same error where there is one. *)
Theorem setAll_single_entry_is_set this l k v w :
  deref (heap w) l = [(k, v)] →
  strict_neq (get this k w) v = true →
  v ≠ VUndefined →
  setAll this (VObject l) w = set this k v w.
Proof.
  intros Hpatch Hdiff Hv. unfold get in Hdiff.
  unfold setAll. cbn [truthy typeof negb orb String.eqb object_entries].
  rewrite Hpatch. cbn [setAll_loop]. unfold setAll_step, set, onChange.
  unfold mbind, M_bind, mret, M_ret, lift.
  rewrite Hdiff, strict_neq_undefined, bool_decide_eq_false_2 by done.
  cbn [negb].
  destruct (assign this k v w) as [[] w1|e w1|w1]; [|done|done].
  by destruct (callSubscriber this k w1) as [[] w2|e w2|w2].
Qed.


(** X7: [setAll] handed the live object itself (every all-subscriber and
    collaborator receives it) changes and notifies nothing, as long as no
    field holds [NaN]: the call is a bare write-back. *)
Theorem setAll_own_object this w :
  wf_obj (live this w) →
  Forall (λ e, e.2 ≠ VNaN) (live this w) →
  setAll this (VObject (config this)) w = Returned tt (save this w).
Proof.
  intros Hwf Hnan. apply setAll_no_difference. by apply differs_self.
Qed.

(** X8: [setAll] is idempotent for a patch of defined values other than
    [NaN] under keys that are none of the names [Object.prototype] defines:
    a second call with the same patch finds nothing to change, notifies
    nobody and is a bare write-back. *)
Theorem setAll_twice this l w w1 :
  wf_obj (deref (heap w) l) →
  plain_keys (deref (heap w) l) →
  Forall (λ e, e.2 ≠ VUndefined ∧ e.2 ≠ VNaN) (deref (heap w) l) →
  setAll this (VObject l) w = Returned tt w1 →
  setAll this (VObject l) w1 = Returned tt (save this w1).
Proof.
  intros Hwf Hplain Hvals Hfirst.
  destruct (setAll_accepted this (VObject l) w eq_refl Hwf Hplain)
    as (w' & Hret & Hlive & _ & Hframe & _).
  rewrite Hfirst in Hret. injection Hret as <-.
  cbn [object_entries] in Hlive.
  apply setAll_no_difference.
  destruct (decide (l = config this)) as [->|Hne].
  - fold (live this w) in *. fold (live this w1).
    assert (existsb (differs (live this w)) (live this w) = false) as Hself.
    { apply differs_self; [done|].
      eapply Forall_impl; [exact Hvals|]. by intros e [_ ?]. }
    destruct (no_difference this _ _ Hplain Hself) as [Hsame _].
    rewrite Hlive, Hsame. exact Hself.
  - unfold deref at 1. rewrite (Hframe l Hne). fold (deref (heap w) l).
    rewrite Hlive. by apply differs_applied.
Qed.


(** ** Single fields and single subscribers *)

(** X1: for a key that is none of the names [Object.prototype] defines,
    [set] and [setAndMaybeRestart] write one field of one store: every
    other field reads as before, and so does every store whose live object
    is another one. *)
Theorem set_other_fields this k v w :
  inherited_name k = false →
  (∀ k', k ≠ k' →
     get this k' (world_of (set this k v w)) = get this k' w
     ∧ get this k' (world_of (setAndMaybeRestart this k v w)) = get this k' w)
  ∧ (∀ other, config other ≠ config this →
       live other (world_of (set this k v w)) = live other w
       ∧ live other (world_of (setAndMaybeRestart this k v w)) = live other w).
Proof.
  intros Hk.
  rewrite set_direct, setAndMaybeRestart_direct by auto with plain.
  cbn [world_of]. split.
  - intros k' Hne. unfold get. rewrite !live_emits, live_store.
    by rewrite getProp_writeProp_ne.
  - intros other Hne. unfold live, store, deref. simpl.
    by rewrite lookup_insert_ne.
Qed.

(** X2: subscribing for a field other than [__proto__] leaves the
    subscribers of the other fields and the all-subscribers as they are: a
    later [set] of another field, one that is none of the names
    [Object.prototype] defines, does what it would have done without the
    subscription. *)
Theorem subscribe_other_field this f fn g v w :
  f ≠ g →
  f ≠ "__proto__" →
  inherited_name g = false →
  ∃ this',
    subscribe this f fn = Some this'
    ∧ subscribers this' !! g = subscribers this !! g
    ∧ set this' g v w = set this g v w.
Proof.
  intros Hne Hf Hg. eexists. split; [by apply subscribe_stored|].
  set (this' := {| name := name this; subscribers := <[f:=fn]> (subscribers this) |}).
  assert (subscribers this' !! g = subscribers this !! g) as Hsub.
  { unfold this'. simpl. by rewrite lookup_insert_ne. }
  split; [done|].
  rewrite !set_direct by auto with plain. unfold perKeyEvents. by rewrite Hsub.
Qed.




(** ** Sequences of calls *)

Lemma then_ret {A B} (m : M A) (x : B) w :
  world_of ((m ;; mret x) w) = world_of (m w)
  ∧ returned ((m ;; mret x) w) = returned (m w).
Proof. unfold mbind, M_bind, mret, M_ret. by destruct (m w). Qed.

Lemma then_ret_instance {A B} (m : M A) (x y : B) w w' :
  (m ;; mret x) w = Returned y w' → y = x.
Proof.
  unfold mbind, M_bind, mret, M_ret. destruct (m w); [|done|done].
  by intros [= <- _].
Qed.

Lemma perform_advances this c w :
  advances this
    (if writes_back c && returned (perform this c w) then 1 else 0)
    w (world_of (perform this c w)).
Proof.
  destruct c; cbn [perform writes_back andb].
  - destruct (then_ret (set this key value) this w) as [-> ->].
    apply advances_set.
  - destruct (then_ret (setAll this options) this w) as [-> ->].
    apply advances_setAll.
  - destruct (then_ret (setAndMaybeRestart this key value) this w) as [-> _].
    apply quiet_setAndMaybeRestart.
  - destruct (subscribe this valueName fn); apply advances_refl.
  - apply advances_refl.
Qed.

(** The addresses an instance holds never change, no subscriber goes, and a
    call writes to no object but the live one. *)
Lemma call_keeps this w c this' w' :
  call (this, w) c = Some (this', w') →
  config this' = config this
  ∧ defaultConfig this' = defaultConfig this
  ∧ allSubscribers this `prefix_of` allSubscribers this'
  ∧ dom (subscribers this) ⊆ dom (subscribers this')
  ∧ grows this w w'.
Proof.
  unfold call. cbn [fst snd].
  pose proof (perform_advances this c w) as [Hgrows _].
  destruct (perform this c w) as [this1 w1|e w1|w1] eqn:Hperform; [| |done].
  - intros [= <- <-]. cbn [world_of] in Hgrows.
    assert (this1 = this ∨ (∃ f fn, subscribe this f fn = Some this1)
            ∨ (∃ fn, this1 = subscribeAll this fn)) as Hinstance.
    { destruct c; cbn [perform] in Hperform.
      - left. by eapply then_ret_instance.
      - left. by eapply then_ret_instance.
      - left. by eapply then_ret_instance.
      - right. left. exists valueName, fn.
        destruct (subscribe this valueName fn); [|done].
        by injection Hperform as <- _.
      - right. right. exists fn. by injection Hperform as <- _. }
    destruct Hinstance as [->|[(f & fn & Hsub)|(fn & ->)]].
    + done.
    + unfold subscribe in Hsub.
      destruct (_ && _); [done|]. injection Hsub as <-. simpl.
      split_and!; try done. rewrite dom_insert. apply union_subseteq_r.
    + simpl. split_and!; try done. by apply prefix_app_r.
  - intros [= <- <-]. by cbn [world_of] in Hgrows.
Qed.

(** A relation that every call respects holds along every sequence. *)
Lemma run_respects (R : PluginConfig * World → PluginConfig * World → Prop) :
  (∀ st, R st st) →
  (∀ st1 st2 st3, R st1 st2 → R st2 st3 → R st1 st3) →
  (∀ st c st', call st c = Some st' → R st st') →
  ∀ calls st, R st (run calls st).
Proof.
  intros Hrefl Htrans Hcall. induction calls as [|c calls IH]; intros st.
  - apply Hrefl.
  - cbn [run]. destruct (call st c) as [st'|] eqn:Hc; [|apply Hrefl].
    eapply Htrans; [exact (Hcall st c st' Hc) | apply IH].
Qed.

Lemma live_same_config this this' w :
  config this' = config this → live this' w = live this w.
Proof. unfold live. by intros ->. Qed.

Lemma run_keeps calls st :
  config (run calls st).1 = config st.1
  ∧ defaultConfig (run calls st).1 = defaultConfig st.1
  ∧ allSubscribers st.1 `prefix_of` allSubscribers (run calls st).1
  ∧ dom (subscribers st.1) ⊆ dom (subscribers (run calls st).1)
  ∧ grows st.1 st.2 (run calls st).2.
Proof.
  revert calls st.
  apply (run_respects
           (λ st st', config st'.1 = config st.1
                      ∧ defaultConfig st'.1 = defaultConfig st.1
                      ∧ allSubscribers st.1 `prefix_of` allSubscribers st'.1
                      ∧ dom (subscribers st.1) ⊆ dom (subscribers st'.1)
                      ∧ grows st.1 st.2 st'.2)).
  - intros st.
    split_and!; first [done | split; [apply same_elsewhere_refl | done]].
  - intros st1 st2 st3 (Hc1 & Hd1 & Ha1 & Hs1 & [He1 Hk1])
                       (Hc2 & Hd2 & Ha2 & Hs2 & [He2 Hk2]).
    split_and!; [congruence | congruence | by etrans | by etrans |].
    split.
    + eapply same_elsewhere_trans; [exact He1|].
      by eapply same_elsewhere_config.
    + etrans; [exact Hk1|].
      rewrite <- (live_same_config st1.1 st2.1 st2.2 Hc1).
      by rewrite <- (live_same_config st1.1 st2.1 st3.2 Hc1).
  - intros [this w] c [this' w'] Hcall. cbn [fst snd].
    by apply (call_keeps this w c).
Qed.

Lemma run_frame calls this w :
  config (run calls (this, w)).1 = config this
  ∧ defaultConfig (run calls (this, w)).1 = defaultConfig this
  ∧ same_elsewhere this w (run calls (this, w)).2.
Proof.
  destruct (run_keeps calls (this, w)) as (Hc & Hd & _ & _ & [He _]).
  by split_and!.
Qed.

(** X10: no call removes a field: after any sequence of calls the live object
    still has every field it had. *)
Theorem fields_never_removed calls this w k :
  k ∈ (live this w).*1 →
  k ∈ (live (run calls (this, w)).1 (run calls (this, w)).2).*1.
Proof.
  intros Hk.
  destruct (run_keeps calls (this, w)) as (Hc & _ & _ & _ & [_ Hkeys]).
  rewrite (live_same_config _ _ _ Hc). by apply Hkeys.
Qed.

(** X11: there is no way to unsubscribe: after any sequence of calls the
    all-subscribers registered before are still registered, first and in
    their order, and every field that had a subscriber has one. *)
Theorem subscribers_never_removed calls this w :
  allSubscribers this `prefix_of` allSubscribers (run calls (this, w)).1
  ∧ dom (subscribers this) ⊆ dom (subscribers (run calls (this, w)).1).
Proof.
  destruct (run_keeps calls (this, w)) as (_ & _ & Ha & Hs & _). by split.
Qed.

(** X12: a call that returns has written the options back exactly once when
    it is a [set] or a [setAll], and not at all when it is a
    [setAndMaybeRestart] or a subscription; a call that throws has not
    written them back. *)
Theorem write_backs_counted this c w :
  match perform this c w with
  | Returned _ w' =>
      persist_calls (log w')
      = persist_calls (log w) + (if writes_back c then 1 else 0)
  | Thrown _ w' => persist_calls (log w') = persist_calls (log w)
  | Unmodelled _ => True
  end.
Proof.
  destruct (perform_advances this c w) as [_ Hcount].
  destruct (perform this c w) as [this' w'|e w'|w']; cbn [world_of returned] in Hcount.
  - by rewrite andb_true_r in Hcount.
  - rewrite andb_false_r in Hcount. lia.
  - done.
Qed.


(** ** Allocation *)

Lemma alloc_inv h o l h' :
  alloc h o = (l, h') → (l ∉ dom h) ∧ h' = <[l := o]> h.
Proof.
  unfold alloc. intros Heq. injection Heq as <- <-.
  split; [apply is_fresh | done].
Qed.

Lemma deref_insert_eq (h : gmap loc obj) l o : deref (<[l := o]> h) l = o.
Proof. unfold deref. by rewrite lookup_insert_eq. Qed.

Lemma deref_insert_ne (h : gmap loc obj) l l' o :
  l ≠ l' → deref (<[l := o]> h) l' = deref h l'.
Proof. intros Hne. unfold deref. by rewrite lookup_insert_ne. Qed.

(** An empty object at an unused address cannot be told from no object. *)
Lemma deref_insert_empty (h : gmap loc obj) l l' :
  l ∉ dom h → deref (<[l := []]> h) l' = deref h l'.
Proof.
  intros Hl. destruct (decide (l = l')) as [<-|Hne].
  - rewrite deref_insert_eq. unfold deref.
    by rewrite (not_elem_of_dom_1 _ _ Hl).
  - by apply deref_insert_ne.
Qed.

Lemma fresh_ne_dom (h : gmap loc obj) l : l ∈ dom h → fresh (dom h) ≠ l.
Proof. intros Hl Heq. apply (is_fresh (dom h)). by rewrite Heq. Qed.

Lemma elem_of_dom_insert_here (h : gmap loc obj) l o : l ∈ dom (<[l := o]> h).
Proof. apply elem_of_dom. rewrite lookup_insert_eq. by eexists. Qed.

Lemma elem_of_dom_insert_there (h : gmap loc obj) l l' o :
  l ∈ dom h → l ∈ dom (<[l' := o]> h).
Proof.
  intros Hl. apply elem_of_dom. destruct (decide (l' = l)) as [->|Hne].
  - rewrite lookup_insert_eq. by eexists.
  - rewrite lookup_insert_ne by done. by apply elem_of_dom.
Qed.

Create HintDb allocated.

#[local] Hint Resolve elem_of_dom_insert_here elem_of_dom_insert_there : allocated.

(** Reads through the allocations of the constructor. *)
Ltac read_heap :=
  repeat first
    [ rewrite deref_insert_eq
    | rewrite deref_insert_ne by (apply fresh_ne_dom; eauto with allocated)
    | rewrite deref_insert_empty by apply is_fresh ].

(** ** Construction *)

Section ConstructionProperties.

Variable array_inherits : string -> bool.
Variable defaultPlugins : gmap string loc.
Variable getOptions : string -> option loc.

Abbreviation setupFront_loop := (setupFront_loop array_inherits).
Abbreviation setupFront := (setupFront array_inherits).
Abbreviation construct := (construct array_inherits defaultPlugins getOptions).
Abbreviation overrideSource := (overrideSource getOptions).
Abbreviation resolvedDefaults := (resolvedDefaults defaultPlugins).

(** The loop leaves at the first member that is not a function, with
    nothing registered for it. *)
Lemma setupFront_loop_field this fnName ty rest w :
  setupFront_loop this ((fnName, Field ty) :: rest) w
  = (if String.eqb ty "function" then
       if js_in_array array_inherits "" ignoredMethods then (w, true)
       else setupFront_loop this rest
              (ipcMain_handle (name this +:+ "-config-" +:+ fnName) (Forward "") w)
     else (w, true)).
Proof. simpl. by destruct (String.eqb ty "function"). Qed.

(** Whatever the order of the fields of an instance, as long as none of them
    holds a function the loop registers nothing. *)
Lemma setupFront_loop_fields this entries w :
  Forall (λ e, member_typeof e.2 ≠ "function") entries →
  (setupFront_loop this entries w).1 = w.
Proof.
  destruct entries as [|[fnName fn] rest]; [done|].
  intros Hfields. apply Forall_cons in Hfields as [Hfn _]. simpl in *.
  apply String.eqb_neq in Hfn. by rewrite Hfn.
Qed.

Lemma setupFront_returns this w : setupFront this w = w.
Proof. reflexivity. Qed.

Lemma construct_frame plugin options w :
  ∃ this w1,
    construct plugin options w = (this, w1)
    ∧ name this = plugin
    ∧ enableFront this = options_enableFront options
    ∧ subscribers this = ∅
    ∧ allSubscribers this = []
    ∧ handlers w1 = handlers w
    ∧ listeners w1 = listeners w
    ∧ log w1 = log w
    ∧ activePlugins w1 !! plugin = Some this.
Proof.
  unfold construct.
  destruct (defaultPlugins !! plugin) as [d|].
  all: destruct (initialOptions options) as [p|]; [|destruct (getOptions plugin) as [p|]].
  all: cbn [alloc]; cbv beta zeta iota; cbn [enableFront].
  all: rewrite ?setupFront_returns.
  all: match goal with |- context [if ?b then _ else _] => destruct b end.
  all: eexists _, _; split; [reflexivity|]; cbn.
  all: split_and!; try done.
  all: apply lookup_insert_eq.
Qed.

Lemma construct_spec plugin options w :
  (∀ l, defaultPlugins !! plugin = Some l → l ∈ dom (heap w)) →
  ∃ this w1,
    construct plugin options w = (this, w1)
    ∧ config this ≠ defaultConfig this
    ∧ deref (heap w1) (defaultConfig this) = resolvedDefaults plugin w
    ∧ live this w1
      = spread (spread [] (resolvedDefaults plugin w)) (overrideSource plugin options w).
Proof.
  intros Htable. unfold construct, resolvedDefaults, overrideSource.
  destruct (defaultPlugins !! plugin) as [d|] eqn:Hd.
  - specialize (Htable d eq_refl).
    destruct (initialOptions options) as [p|]; [|destruct (getOptions plugin) as [p|]].
    all: cbn [alloc]; cbv beta zeta iota; cbn [enableFront].
    all: rewrite ?setupFront_returns.
    all: match goal with |- context [if ?b then _ else _] => destruct b end.
    all: eexists _, _; split; [reflexivity|]; cbn.
    all: unfold live; cbn; split_and!; try done.
    all: try (apply fresh_ne_dom; eauto with allocated).
    all: by read_heap.
  - destruct (initialOptions options) as [p|]; [|destruct (getOptions plugin) as [p|]].
    all: cbn [alloc]; cbv beta zeta iota; cbn [enableFront].
    all: rewrite ?setupFront_returns.
    all: match goal with |- context [if ?b then _ else _] => destruct b end.
    all: eexists _, _; split; [reflexivity|]; cbn.
    all: unfold live; cbn; split_and!; try done.
    all: try (apply fresh_ne_dom; eauto with allocated).
    all: by read_heap.
Qed.

(** C1, at the failing input: constructing with [enableFront] set registers
    no request handler and no listener at all.  [setupFront] leaves at the
    first own property of the instance, which is a data field. *)
Theorem construct_front_registers_nothing plugin initial w :
  ∃ this w',
    construct plugin {| options_enableFront := true; initialOptions := initial |} w
    = (this, w')
    ∧ enableFront this = true
    ∧ handlers w' = handlers w
    ∧ listeners w' = listeners w.
Proof.
  destruct (construct_frame plugin
              {| options_enableFront := true; initialOptions := initial |} w)
    as (this & w' & Hc & _ & Hfront & _ & _ & Hh & Hl & _).
  by exists this, w'.
Qed.

(** C8: for a plugin without an entry in the default table the constructor
    takes the empty object for the defaults and the live object holds what
    the override source holds: [initialOptions] when given, else what
    [getOptions] returns, else nothing. *)
Theorem construct_without_defaults plugin options w :
  defaultPlugins !! plugin = None →
  wf_obj (overrideSource plugin options w) →
  ∃ this w',
    construct plugin options w = (this, w')
    ∧ deref (heap w') (getDefaultConfig this) = []
    ∧ live this w' = overrideSource plugin options w.
Proof.
  intros Hnone Hwf.
  destruct (construct_spec plugin options w) as (this & w' & Hc & _ & Hd & Hlive).
  { intros l Hl. congruence. }
  exists this, w'. unfold resolvedDefaults in *. rewrite Hnone in *.
  split_and!; [done|done|].
  rewrite Hlive. unfold spread at 2. simpl. by apply spread_nil.
Qed.

(** C9: whatever calls of [set], [setAll], [setAndMaybeRestart],
    [subscribe] and [subscribeAll] follow the construction,
    [getDefaultConfig()] returns the object resolved by the constructor and
    that object holds what it held then. *)
Theorem defaults_never_mutated plugin options w calls :
  (∀ l, defaultPlugins !! plugin = Some l → l ∈ dom (heap w)) →
  ∃ this w1 this' w2,
    construct plugin options w = (this, w1)
    ∧ run calls (this, w1) = (this', w2)
    ∧ getDefaultConfig this' = getDefaultConfig this
    ∧ deref (heap w2) (getDefaultConfig this')
      = deref (heap w1) (getDefaultConfig this)
    ∧ deref (heap w1) (getDefaultConfig this) = resolvedDefaults plugin w.
Proof.
  intros Htable.
  destruct (construct_spec plugin options w Htable)
    as (this & w1 & Hc & Hne & Hd & _).
  destruct (run_frame calls this w1) as (_ & Hd' & Hheap & _).
  destruct (run calls (this, w1)) as [this' w2] eqn:Hrun. cbn [fst snd] in *.
  exists this, w1, this', w2. unfold getDefaultConfig.
  split_and!; [done|done|done| |done].
  rewrite Hd'. unfold deref. rewrite Hheap; [done|]. congruence.
Qed.

End ConstructionProperties.

(** ** [getAll] *)

(** X13: [getAll()] returns a new object that holds what the live object
    holds; the live object stays as it is, and whatever is done to the
    returned object afterwards, [get] reads what it read. *)
Theorem getAll_fresh_copy this w :
  config this ∈ dom (heap w) →
  wf_obj (live this w) →
  ∃ l w',
    getAll this w = (l, w')
    ∧ (l ∉ dom (heap w))
    ∧ l ≠ config this
    ∧ deref (heap w') l = live this w
    ∧ live this w' = live this w
    ∧ log w' = log w
    ∧ (∀ o k, get this k (with_heap (<[l := o]> (heap w')) w') = get this k w).
Proof.
  intros Hconfig Hwf. unfold getAll, alloc. cbv beta zeta iota.
  set (l := fresh (dom (heap w))).
  assert (l ≠ config this) as Hne by (by apply fresh_ne_dom).
  eexists _, _. split; [reflexivity|]. cbn [heap with_heap log].
  split_and!.
  - apply is_fresh.
  - done.
  - by rewrite deref_insert_eq, spread_nil.
  - unfold live. cbn [heap with_heap]. by rewrite deref_insert_ne.
  - done.
  - intros o k. unfold get, live. cbn [heap with_heap].
    by rewrite !deref_insert_ne.
Qed.

(** ** More on construction *)

Section MoreConstruction.

Variable array_inherits : string -> bool.
Variable defaultPlugins : gmap string loc.
Variable getOptions : string -> option loc.

Abbreviation setupFront_loop := (setupFront_loop array_inherits).
Abbreviation construct := (construct array_inherits defaultPlugins getOptions).
Abbreviation overrideSource := (overrideSource getOptions).
Abbreviation resolvedDefaults := (resolvedDefaults defaultPlugins).

Lemma fresh_not_allocated (h h' : gmap loc obj) :
  (∀ l, l ∈ dom h → l ∈ dom h') → fresh (dom h') ∉ dom h.
Proof. intros Hsub Hin. apply (is_fresh (dom h')). by apply Hsub. Qed.

(** The constructor allocates; it writes to no object there is. *)
Lemma construct_heap plugin options w :
  ∃ this w1,
    construct plugin options w = (this, w1)
    ∧ (config this ∉ dom (heap w))
    ∧ config this ∈ dom (heap w1)
    ∧ (∀ l, l ∈ dom (heap w) → heap w1 !! l = heap w !! l)
    ∧ activePlugins w1 = <[plugin := this]> (activePlugins w).
Proof.
  unfold construct.
  destruct (defaultPlugins !! plugin) as [d|].
  all: destruct (initialOptions options) as [p|]; [|destruct (getOptions plugin) as [p|]].
  all: cbn [alloc]; cbv beta zeta iota; cbn [enableFront].
  all: rewrite ?setupFront_returns.
  all: match goal with |- context [if ?b then _ else _] => destruct b end.
  all: eexists _, _; split; [reflexivity|]; cbn.
  all: split_and!; try done.
  all: try (apply fresh_not_allocated; eauto with allocated).
  all: try apply elem_of_dom_insert_here.
  all: intros l Hl.
  all: by rewrite ?lookup_insert_ne by (apply fresh_ne_dom; eauto with allocated).
Qed.

(** X14: in the live object of a new store a field of the override source
    reads as there, also when it holds [undefined]; a field of the defaults
    only reads as in the defaults; a field in neither reads as
    [Object.prototype] has it, [undefined] for the names it does not
    define. *)
Theorem construct_merges plugin options w k :
  (∀ l, defaultPlugins !! plugin = Some l → l ∈ dom (heap w)) →
  wf_obj (resolvedDefaults plugin w) →
  wf_obj (overrideSource plugin options w) →
  ∃ this w',
    construct plugin options w = (this, w')
    ∧ get this k w'
      = (if bool_decide (k ∈ (overrideSource plugin options w).*1)
         then readProp (overrideSource plugin options w) k
         else if bool_decide (k ∈ (resolvedDefaults plugin w).*1)
              then readProp (resolvedDefaults plugin w) k
              else inherited k).
Proof.
  intros Htable Hd Hs.
  destruct (construct_spec array_inherits defaultPlugins getOptions
              plugin options w Htable) as (this & w' & Hc & _ & _ & Hlive).
  exists this, w'. split; [done|]. unfold get, getProp, hasOwn.
  rewrite Hlive, spread_nil, readProp_spread by done.
  rewrite (bool_decide_ext _ _ (elem_of_spread _ _ k)).
  destruct (decide (k ∈ (overrideSource plugin options w).*1)) as [Hs'|Hs'];
    destruct (decide (k ∈ (resolvedDefaults plugin w).*1)) as [Hd'|Hd'].
  all: rewrite ?(bool_decide_eq_true_2 _ Hs'), ?(bool_decide_eq_false_2 _ Hs'),
         ?(bool_decide_eq_true_2 _ Hd'), ?(bool_decide_eq_false_2 _ Hd').
  1-3: by rewrite bool_decide_eq_true_2 by tauto.
  by rewrite bool_decide_eq_false_2 by tauto.
Qed.

(** X15: a new store whose name is not [__proto__] is registered under its
    plugin name, where [isActive] and [getActivePlugins] find it; for the
    other names the entry and the answer of [isActive] stay as they were. *)
Theorem construct_registers plugin options w :
  plugin ≠ "__proto__" →
  ∃ this w',
    construct plugin options w = (this, w')
    ∧ getActivePlugins w' !! plugin = Some this
    ∧ isActive plugin w' = true
    ∧ (∀ other, other ≠ plugin →
         getActivePlugins w' !! other = getActivePlugins w !! other
         ∧ isActive other w' = isActive other w).
Proof.
  intros Hproto.
  destruct (construct_heap plugin options w) as (this & w' & Hc & _ & _ & _ & Hreg).
  exists this, w'. unfold getActivePlugins, isActive. rewrite Hreg.
  split_and!; [done | apply lookup_insert_eq | |].
  - rewrite lookup_insert_eq. rewrite bool_decide_eq_true_2 by (by eexists).
    done.
  - intros other Hne. by rewrite !lookup_insert_ne.
Qed.

(** X21: [isActive] answers for more than the registered names.  It holds of
    every name [Object.prototype] defines, whatever has been constructed.
    And a store constructed under the name [__proto__] becomes the prototype
    of the registry: from then on [isActive] holds of every field and method
    of a store, also of those, such as [name] and [get], of which it did not
    hold before. *)
Theorem isActive_inherited options w :
  activePlugins w !! "__proto__" = None →
  ∃ this w',
    construct "__proto__" options w = (this, w')
    ∧ (∀ k, inherited_name k = true → isActive k w = true ∧ isActive k w' = true)
    ∧ (∀ k, instance_has this k = true → isActive k w' = true)
    ∧ (∀ k, activePlugins w !! k = None →
            inherited_name k = false →
            instance_has this k = true →
            isActive k w = false ∧ isActive k w' = true).
Proof.
  intros Hproto.
  destruct (construct_heap "__proto__" options w)
    as (this & w' & Hc & _ & _ & _ & Hreg).
  exists this, w'. split; [done|].
  assert (∀ k, instance_has this k = true → isActive k w' = true) as Hhas.
  { intros k Hk. unfold isActive. rewrite Hreg, lookup_insert_eq, Hk.
    apply orb_true_r. }
  split_and!.
  - intros k Hk. split.
    + unfold isActive. rewrite Hproto, Hk. apply orb_true_r.
    + apply Hhas. unfold instance_has. rewrite Hk. apply orb_true_r.
  - done.
  - intros k Hnone Hk Hinst. split; [|by apply Hhas].
    unfold isActive. rewrite Hproto, Hnone, Hk.
    by rewrite bool_decide_eq_false_2 by (by intros [? ?]).
Qed.

(** X16: constructing a second store for the same plugin leaves the registry
    with the second one only.  The two stores have live objects of their
    own: a [set] on either leaves the other's fields as they are. *)
Theorem construct_twice plugin options1 options2 w :
  ∃ this1 w1 this2 w2,
    construct plugin options1 w = (this1, w1)
    ∧ construct plugin options2 w1 = (this2, w2)
    ∧ getActivePlugins w2 !! plugin = Some this2
    ∧ config this1 ≠ config this2
    ∧ live this1 w2 = live this1 w1
    ∧ (∀ k v, live this1 (world_of (set this2 k v w2)) = live this1 w2
              ∧ live this2 (world_of (set this1 k v w2)) = live this2 w2).
Proof.
  destruct (construct_heap plugin options1 w)
    as (this1 & w1 & Hc1 & _ & Hin1 & _ & _).
  destruct (construct_heap plugin options2 w1)
    as (this2 & w2 & Hc2 & Hout2 & _ & Hkeep & Hreg).
  assert (config this1 ≠ config this2) as Hne by (intros Heq; by rewrite Heq in Hin1).
  exists this1, w1, this2, w2. unfold getActivePlugins. rewrite Hreg.
  split_and!; [done | done | apply lookup_insert_eq | done | |].
  - unfold live, deref. by rewrite Hkeep.
  - intros k v.
    destruct (advances_set this2 k v w2) as [[(Hh2 & _) _] _].
    destruct (advances_set this1 k v w2) as [[(Hh1 & _) _] _].
    unfold live, deref. by rewrite Hh2, Hh1.
Qed.

(** X17: the constructor copies.  An object that exists when a store is
    constructed (the one passed as [initialOptions], the one [getOptions]
    returns, an entry of the default table, the live object of another store)
    is written to neither by the construction nor by any call on the store
    afterwards. *)
Theorem existing_objects_untouched plugin options w calls l :
  l ∈ dom (heap w) →
  ∃ this w1,
    construct plugin options w = (this, w1)
    ∧ heap w1 !! l = heap w !! l
    ∧ heap (run calls (this, w1)).2 !! l = heap w !! l.
Proof.
  intros Hl.
  destruct (construct_heap plugin options w) as (this & w1 & Hc & Hout & _ & Hkeep & _).
  exists this, w1. split_and!; [done | by apply Hkeep |].
  destruct (run_frame calls this w1) as (_ & _ & Hheap & _).
  rewrite Hheap; [by apply Hkeep|]. intros ->. by apply Hout.
Qed.

(** ** The loop of [setupFront] *)

Lemma setupFront_loop_method this fnName n rest w :
  setupFront_loop this ((fnName, Method n) :: rest) w
  = if js_in_array array_inherits n ignoredMethods then (w, true)
    else setupFront_loop this rest
           (ipcMain_handle (name this +:+ "-config-" +:+ fnName) (Forward n) w).
Proof. reflexivity. Qed.

Lemma setupFront_loop_methods this (methods rest : list (string * Member)) : ∀ w,
  Forall (λ e, ∃ n, e.2 = Method n
                    ∧ js_in_array array_inherits n ignoredMethods = false)
         methods →
  setupFront_loop this (methods ++ rest) w
  = setupFront_loop this rest
      {| heap := heap w; handlers := handlers w ++ forwarded this methods;
         listeners := listeners w; activePlugins := activePlugins w;
         log := log w |}.
Proof.
  induction methods as [|[fnName fn] methods IH]; intros w Hm.
  - unfold forwarded. simpl. rewrite app_nil_r. by destruct w.
  - apply Forall_cons in Hm as [(n & Hfn & Hn) Hm]. cbn [snd] in Hfn. subst fn.
    cbn [app]. rewrite setupFront_loop_method, Hn.
    rewrite IH by done. unfold ipcMain_handle, forwarded.
    cbn [heap handlers listeners activePlugins log].
    by rewrite fmap_cons, <- app_assoc.
Qed.

(** X19: the loop registers a handler ["<name>-config-<member>"] for each
    function it meets, in order, until the first member that is not a
    function; there it leaves [setupFront], and the members after it, the
    functions among them too, get no handler. *)
Theorem setupFront_loop_stops_at_field this methods fieldName ty rest w :
  Forall (λ e, ∃ n, e.2 = Method n
                    ∧ js_in_array array_inherits n ignoredMethods = false)
         methods →
  ty ≠ "function" →
  let r := setupFront_loop this (methods ++ (fieldName, Field ty) :: rest) w in
  r.2 = true
  ∧ handlers r.1 = handlers w ++ forwarded this methods
  ∧ listeners r.1 = listeners w.
Proof.
  intros Hm Hty r. subst r. rewrite setupFront_loop_methods by done.
  rewrite setupFront_loop_field.
  apply String.eqb_neq in Hty. by rewrite Hty.
Qed.

End MoreConstruction.

(** ** The claims on a concrete store *)


(** C3, as stated, fails: an array is no mapping, and [setAll([5])] does not
    throw; it stores [5] under [0], notifies and writes back. *)
Lemma setAll_array_not_rejected :
  ∃ w',
    setAll example_store (VArray 4) example_world = Returned tt w'
    ∧ live example_store w'
      = [("0", VNumber 5); ("a", VNumber 0); ("b", VNumber 2)]
    ∧ live example_store w' ≠ live example_store example_world
    ∧ persist_calls (log w') = 1.
Proof. eexists. split_and!; by vm_compute. Qed.




(** The concrete store holds [a = 0] and [b = 2]. *)
Lemma setAll_one_of_two_changes_witness :
  deref (heap example_world) 2 = [("a", VNumber 1); ("b", VNumber 2)]
  ∧ strict_neq (get example_store "a" example_world) (VNumber 1) = true
  ∧ get example_store "b" example_world = VNumber 2
  ∧ ∃ w',
      setAll example_store (VObject 2) example_world = Returned tt w'
      ∧ get example_store "a" w' = VNumber 1
      ∧ get example_store "b" w' = VNumber 2
      ∧ persist_calls (log w') = 1.
Proof.
  split_and!; [by vm_compute | by vm_compute | by vm_compute |].
  destruct (setAll_one_of_two_changes example_store 2 example_world)
    as (w' & Hret & _ & Ha & Hb & _ & Hcount); [by vm_compute ..|].
  exists w'. split_and!; [exact Hret | exact Ha | exact Hb | exact Hcount].
Defined.

(** [setAll(42)] on the concrete store. *)
Lemma setAll_rejects_witness :
  (truthy (VNumber 42) = false ∨ typeof (VNumber 42) ≠ "object")
  ∧ setAll example_store (VNumber 42) example_world
    = Thrown "Options must be an object." example_world.
Proof.
  assert (truthy (VNumber 42) = false ∨ typeof (VNumber 42) ≠ "object") as Hbad.
  { right. discriminate. }
  split; [exact Hbad|].
  apply (setAll_rejects example_store (VNumber 42) example_world Hbad).
Defined.




(** A plugin without defaults whose stored options are [{a: 1, b: 2}]. *)
Lemma construct_without_defaults_witness :
  (∅ : gmap string loc) !! "P" = None
  ∧ wf_obj (overrideSource (λ _, Some 2) "P" default_options example_world)
  ∧ ∃ this w',
      construct (λ _, false) ∅ (λ _, Some 2) "P" default_options example_world
      = (this, w')
      ∧ deref (heap w') (getDefaultConfig this) = []
      ∧ live this w' = [("a", VNumber 1); ("b", VNumber 2)].
Proof.
  assert (wf_obj (overrideSource (λ _, Some 2) "P" default_options example_world))
    as Hwf.
  { apply (bool_decide_unpack _). by vm_compute. }
  split_and!; [done | exact Hwf |].
  destruct (construct_without_defaults (λ _, false) ∅ (λ _, Some 2) "P"
              default_options example_world (lookup_empty _) Hwf)
    as (this & w' & Hc & Hd & Hlive).
  exists this, w'. split_and!; [exact Hc | exact Hd | exact Hlive].
Defined.

(** A plugin with defaults [{a: 0}], constructed and then written to. *)
Lemma defaults_never_mutated_witness :
  (∀ l, example_table !! "P" = Some l → l ∈ dom (heap example_world))
  ∧ ∃ this w1 this' w2,
      construct (λ _, false) example_table (λ _, None) "P" default_options
        example_world = (this, w1)
      ∧ run example_calls (this, w1) = (this', w2)
      ∧ getDefaultConfig this' = 1
      ∧ deref (heap w2) (getDefaultConfig this') = [("a", VNumber 0)].
Proof.
  assert (∀ l, example_table !! "P" = Some l → l ∈ dom (heap example_world))
    as Htable.
  { intros l Hl. unfold example_table in Hl.
    rewrite lookup_singleton_eq in Hl. injection Hl as Hl. subst l.
    apply elem_of_dom. exists [("a", VNumber 0)]. by vm_compute. }
  split; [exact Htable|].
  destruct (defaults_never_mutated (λ _, false) example_table (λ _, None) "P"
              default_options example_world example_calls Htable)
    as (this & w1 & this' & w2 & Hc & Hrun & Hsame & Hheap & Hres).
  exists this, w1, this', w2.
  assert (getDefaultConfig this = 1) as Hd.
  { vm_compute in Hc. by injection Hc as <- _. }
  split_and!; [exact Hc | exact Hrun | by rewrite Hsame |].
  by rewrite Hheap, Hres.
Defined.

(** [setAll([5])] on the concrete store. *)
Lemma setAll_accepts_arrays_witness :
  wf_obj (deref (heap example_world) 4)
  ∧ plain_keys (deref (heap example_world) 4)
  ∧ ∃ w',
      setAll example_store (VArray 4) example_world = Returned tt w'
      ∧ get example_store "0" w' = VNumber 5
      ∧ log w' = [ Called 7 (PConfig 0 [("0", VNumber 5); ("a", VNumber 0);
                                        ("b", VNumber 2)]);
                   SendToFront "P-config-changed"
                     (PConfig 0 [("0", VNumber 5); ("a", VNumber 0);
                                 ("b", VNumber 2)]);
                   SetOptions "P" 0 [("0", VNumber 5); ("a", VNumber 0);
                                     ("b", VNumber 2)] ].
Proof.
  assert (wf_obj (deref (heap example_world) 4)) as Hwf.
  { apply (bool_decide_unpack _). by vm_compute. }
  assert (plain_keys (deref (heap example_world) 4)) as Hplain.
  { apply (bool_decide_unpack _). by vm_compute. }
  split_and!; [exact Hwf | exact Hplain |].
  destruct (proj2 setAll_accepts_arrays example_store 4 example_world Hwf Hplain)
    as (w' & Hret & _ & Hget & Hlog).
  exists w'. split_and!; [exact Hret | by rewrite Hget | by rewrite Hlog].
Defined.

(** ** The further properties on the concrete store *)

(** [set("a", 9)], read at [b]. *)
Lemma set_other_fields_witness :
  inherited_name "a" = false
  ∧ get example_store "b"
      (world_of (set example_store "a" (VNumber 9) example_world))
    = VNumber 2.
Proof.
  assert (inherited_name "a" = false) as Hk by (by vm_compute).
  split; [exact Hk|].
  destruct (set_other_fields example_store "a" (VNumber 9) example_world Hk)
    as [Hfields _].
  destruct (Hfields "b") as [Hget _]; [discriminate|].
  by rewrite Hget.
Defined.

(** Subscribing for [a], then setting [b]. *)
Lemma subscribe_other_field_witness :
  "a" ≠ "b"
  ∧ "a" ≠ "__proto__"
  ∧ inherited_name "b" = false
  ∧ ∃ this',
      subscribe example_store "a" (User 9) = Some this'
      ∧ set this' "b" VNull example_world
        = set example_store "b" VNull example_world.
Proof.
  assert ("a" ≠ "b") as Hne by discriminate.
  assert ("a" ≠ "__proto__") as Hf by discriminate.
  assert (inherited_name "b" = false) as Hg by (by vm_compute).
  split_and!; [exact Hne | exact Hf | exact Hg |].
  destruct (subscribe_other_field example_store "a" (User 9) "b" VNull
              example_world Hne Hf Hg) as (this' & Hsub & _ & Hset).
  exists this'. split; [exact Hsub | exact Hset].
Defined.



(** [setAll({c: 3})] on a store without [c]. *)
Lemma setAll_single_entry_is_set_witness :
  deref (heap example_world_more) 5 = [("c", VNumber 3)]
  ∧ strict_neq (get example_store "c" example_world_more) (VNumber 3) = true
  ∧ VNumber 3 ≠ VUndefined
  ∧ setAll example_store (VObject 5) example_world_more
    = set example_store "c" (VNumber 3) example_world_more.
Proof.
  assert (VNumber 3 ≠ VUndefined) as Hv by discriminate.
  split_and!; [by vm_compute | by vm_compute | exact Hv |].
  apply (setAll_single_entry_is_set example_store 5 "c" (VNumber 3)
           example_world_more); [by vm_compute | by vm_compute | exact Hv].
Defined.


(** [setAll] with the live object of the concrete store. *)
Lemma setAll_own_object_witness :
  wf_obj (live example_store example_world)
  ∧ Forall (λ e, e.2 ≠ VNaN) (live example_store example_world)
  ∧ setAll example_store (VObject (config example_store)) example_world
    = Returned tt (save example_store example_world).
Proof.
  assert (wf_obj (live example_store example_world)) as Hwf.
  { apply (bool_decide_unpack _). by vm_compute. }
  assert (Forall (λ e, e.2 ≠ VNaN) (live example_store example_world)) as Hnan.
  { vm_compute. repeat constructor; discriminate. }
  split_and!; [exact Hwf | exact Hnan |].
  apply (setAll_own_object example_store example_world Hwf Hnan).
Defined.

(** [setAll({a: 1, b: 2})] twice. *)
Lemma setAll_twice_witness :
  wf_obj (deref (heap example_world) 2)
  ∧ plain_keys (deref (heap example_world) 2)
  ∧ Forall (λ e, e.2 ≠ VUndefined ∧ e.2 ≠ VNaN) (deref (heap example_world) 2)
  ∧ setAll example_store (VObject 2) example_world
    = Returned tt (world_of (setAll example_store (VObject 2) example_world))
  ∧ setAll example_store (VObject 2)
      (world_of (setAll example_store (VObject 2) example_world))
    = Returned tt
        (save example_store
           (world_of (setAll example_store (VObject 2) example_world))).
Proof.
  assert (wf_obj (deref (heap example_world) 2)) as Hwf.
  { apply (bool_decide_unpack _). by vm_compute. }
  assert (plain_keys (deref (heap example_world) 2)) as Hplain.
  { apply (bool_decide_unpack _). by vm_compute. }
  assert (Forall (λ e, e.2 ≠ VUndefined ∧ e.2 ≠ VNaN)
            (deref (heap example_world) 2)) as Hvals.
  { vm_compute. repeat constructor; discriminate. }
  assert (setAll example_store (VObject 2) example_world
          = Returned tt (world_of (setAll example_store (VObject 2) example_world)))
    as Hfirst by (by vm_compute).
  split_and!; [exact Hwf | exact Hplain | exact Hvals | exact Hfirst |].
  apply (setAll_twice example_store 2 example_world _ Hwf Hplain Hvals Hfirst).
Defined.


(** The field [a] of the concrete store after some calls. *)
Lemma fields_never_removed_witness :
  "a" ∈ (live example_store example_world).*1
  ∧ "a" ∈ (live (run example_calls (example_store, example_world)).1
                (run example_calls (example_store, example_world)).2).*1.
Proof.
  assert ("a" ∈ (live example_store example_world).*1) as Hin.
  { vm_compute. left. }
  split; [exact Hin|].
  apply (fields_never_removed example_calls example_store example_world "a" Hin).
Defined.

(** [getAll()] on the concrete store. *)
Lemma getAll_fresh_copy_witness :
  config example_store ∈ dom (heap example_world)
  ∧ wf_obj (live example_store example_world)
  ∧ ∃ l w',
      getAll example_store example_world = (l, w')
      ∧ deref (heap w') l = [("a", VNumber 0); ("b", VNumber 2)]
      ∧ l ≠ config example_store.
Proof.
  assert (config example_store ∈ dom (heap example_world)) as Hin.
  { apply elem_of_dom. exists [("a", VNumber 0); ("b", VNumber 2)].
    by vm_compute. }
  assert (wf_obj (live example_store example_world)) as Hwf.
  { apply (bool_decide_unpack _). by vm_compute. }
  split_and!; [exact Hin | exact Hwf |].
  destruct (getAll_fresh_copy example_store example_world Hin Hwf)
    as (l & w' & Hget & _ & Hne & Hcopy & _).
  exists l, w'. split_and!; [exact Hget | by rewrite Hcopy | exact Hne].
Defined.

(** A plugin with defaults [{a: 0}] and stored options [{a: 1, b: 2}]. *)
Lemma construct_merges_witness :
  (∀ l, example_table !! "P" = Some l → l ∈ dom (heap example_world))
  ∧ wf_obj (resolvedDefaults example_table "P" example_world)
  ∧ wf_obj (overrideSource (λ _, Some 2) "P" default_options example_world)
  ∧ ∃ this w',
      construct (λ _, false) example_table (λ _, Some 2) "P" default_options
        example_world = (this, w')
      ∧ get this "b" w' = VNumber 2
      ∧ get this "constructor" w' = VBuiltin "constructor".
Proof.
  assert (∀ l, example_table !! "P" = Some l → l ∈ dom (heap example_world))
    as Htable.
  { intros l Hl. unfold example_table in Hl.
    rewrite lookup_singleton_eq in Hl. injection Hl as Hl. subst l.
    apply elem_of_dom. exists [("a", VNumber 0)]. by vm_compute. }
  assert (wf_obj (resolvedDefaults example_table "P" example_world)) as Hd.
  { apply (bool_decide_unpack _). by vm_compute. }
  assert (wf_obj (overrideSource (λ _, Some 2) "P" default_options example_world))
    as Hs.
  { apply (bool_decide_unpack _). by vm_compute. }
  split_and!; [exact Htable | exact Hd | exact Hs |].
  destruct (construct_merges (λ _, false) example_table (λ _, Some 2) "P"
              default_options example_world "b" Htable Hd Hs)
    as (this & w' & Hc & Hget).
  destruct (construct_merges (λ _, false) example_table (λ _, Some 2) "P"
              default_options example_world "constructor" Htable Hd Hs)
    as (this2 & w2 & Hc2 & Hget2).
  rewrite Hc in Hc2. injection Hc2 as <- <-.
  exists this, w'. split_and!; [exact Hc | by rewrite Hget | by rewrite Hget2].
Defined.

(** A plugin named [P]. *)
Lemma construct_registers_witness :
  "P" ≠ "__proto__"
  ∧ ∃ this w',
      construct (λ _, false) example_table (λ _, None) "P" default_options
        example_world = (this, w')
      ∧ isActive "P" w' = true
      ∧ isActive "Q" w' = false.
Proof.
  assert ("P" ≠ "__proto__") as Hp by discriminate.
  split; [exact Hp|].
  destruct (construct_registers (λ _, false) example_table (λ _, None) "P"
              default_options example_world Hp)
    as (this & w' & Hc & _ & Hactive & Hothers).
  exists this, w'. split_and!; [exact Hc | exact Hactive |].
  destruct (Hothers "Q") as [_ ->]; [discriminate | by vm_compute].
Defined.

(** The object [{a: 1, b: 2}] at [2], passed as [initialOptions]. *)
Lemma existing_objects_untouched_witness :
  2 ∈ dom (heap example_world)
  ∧ ∃ this w1,
      construct (λ _, false) example_table (λ _, None) "P"
        {| options_enableFront := true; initialOptions := Some 2 |}
        example_world = (this, w1)
      ∧ heap (run example_calls (this, w1)).2 !! 2
        = Some [("a", VNumber 1); ("b", VNumber 2)].
Proof.
  assert (2 ∈ dom (heap example_world)) as Hin.
  { apply elem_of_dom. exists [("a", VNumber 1); ("b", VNumber 2)].
    by vm_compute. }
  split; [exact Hin|].
  destruct (existing_objects_untouched (λ _, false) example_table (λ _, None)
              "P" {| options_enableFront := true; initialOptions := Some 2 |}
              example_world example_calls 2 Hin)
    as (this & w1 & Hc & _ & Hkeep).
  exists this, w1. split; [exact Hc|]. rewrite Hkeep. by vm_compute.
Defined.

(** Two function members, then the field [name], then one more function. *)
Lemma setupFront_loop_stops_at_field_witness :
  Forall (λ e, ∃ n, e.2 = Method n
                    ∧ js_in_array (λ _, false) n ignoredMethods = false)
         example_members
  ∧ "string" ≠ "function"
  ∧ handlers
      (setupFront_loop (λ _, false) example_store
         (example_members ++ ("name", Field "string") :: [("late", Method "late")])
         example_world).1
    = [("P-config-reload", Forward "reload"); ("P-config-reset", Forward "reset")].
Proof.
  assert (Forall (λ e, ∃ n, e.2 = Method n
                            ∧ js_in_array (λ _, false) n ignoredMethods = false)
            example_members) as Hm.
  { unfold example_members.
    repeat constructor; eexists; (split; [reflexivity | by vm_compute]). }
  assert ("string" ≠ "function") as Hty by discriminate.
  split_and!; [exact Hm | exact Hty |].
  destruct (setupFront_loop_stops_at_field (λ _, false) example_store
              example_members "name" "string" [("late", Method "late")]
              example_world Hm Hty) as (_ & Hh & _).
  rewrite Hh. by vm_compute.
Defined.

(** A store named [__proto__] in a world without stores. *)
Lemma isActive_inherited_witness :
  activePlugins example_world !! "__proto__" = None
  ∧ isActive "name" example_world = false
  ∧ isActive "toString" example_world = true
  ∧ ∃ this w',
      construct (λ _, false) example_table (λ _, None) "__proto__"
        default_options example_world = (this, w')
      ∧ isActive "name" w' = true
      ∧ isActive "get" w' = true.
Proof.
  assert (activePlugins example_world !! "__proto__" = None) as Hproto
    by (by vm_compute).
  split_and!; [exact Hproto | by vm_compute | by vm_compute |].
  destruct (isActive_inherited (λ _, false) example_table (λ _, None)
              default_options example_world Hproto)
    as (this & w' & Hc & _ & Hhas & _).
  exists this, w'.
  split_and!; [exact Hc | by apply Hhas | by apply Hhas].
Defined.


